(** * ParticleRetainedAtomic: a double-buffered, checksummed record store

    Shallow embedding of [src/ParticleRetainedAtomic.h] and the properties
    of its commit / recovery protocol.

    The C++ class template is parametric in a plain record type [T]; the only
    thing the code ever does with a [T] is copy it whole ([m_data = ...]) and
    read its [sizeof(T)] bytes one by one.  A record is therefore modelled by
    its byte image.  The retained memory handed to the constructor (two record
    regions and one [ParticleRetainedAtomicData_t]) is a single shared store;
    the two [SavePage] objects hold references into it and are modelled by the
    name of the page they refer to. *)

From Stdlib Require Import ZArith Lia Bool.
From Stdlib Require Import Strings.Byte.
From stdpp Require Import base list.

Local Open Scope Z_scope.

(** ** Machine integers *)

Definition UINT16_MAX : Z := 65535.

(** Conversion of an [int] result to [uint16_t] and to [uint32_t]. *)
Definition u16 (x : Z) : Z := x mod 2 ^ 16.
Definition u32 (x : Z) : Z := x mod 2 ^ 32.

(** [~x] on a [uint32_t]. *)
Definition not32 (x : Z) : Z := u32 (Z.lnot x).

(** The value of one [uint8_t]. *)
Definition byte_val (b : byte) : Z := Z.of_N (Byte.to_N b).

(** ** Retained memory *)

(** The byte image of a [T]; [sizeof(T)] is its length (at least 1 in C++). *)
Abbreviation T := (list byte).

Record ParticleRetainedAtomicData_t : Type := {
  seqNumA : Z;      (* uint16_t *)
  seqNumB : Z;      (* uint16_t *)
  checksumA : Z;    (* uint32_t *)
  checksumB : Z     (* uint32_t *)
}.

(** Everything the caller declares [retained] and passes by reference. *)
Record Retained : Type := {
  retainedPageA : T;
  retainedPageB : T;
  retainedData : ParticleRetainedAtomicData_t
}.

(** The two [SavePage] members of the store.  [m_a] is bound to
    [(retainedPageA, seqNumA, checksumA)], [m_b] to
    [(retainedPageB, seqNumB, checksumB)]. *)
Inductive SavePage : Type := m_a | m_b.

#[global] Instance SavePage_eq_dec : EqDecision SavePage.
Proof. solve_decision. Defined.

(** [this == &rhs] *)
Definition SavePage_eqb (p q : SavePage) : bool :=
  match p, q with
  | m_a, m_a | m_b, m_b => true
  | _, _ => false
  end.

(** Reading through the three references of a [SavePage]. *)
Definition m_data (p : SavePage) (mem : Retained) : T :=
  match p with
  | m_a => retainedPageA mem
  | m_b => retainedPageB mem
  end.

Definition m_seqNum (p : SavePage) (mem : Retained) : Z :=
  match p with
  | m_a => seqNumA (retainedData mem)
  | m_b => seqNumB (retainedData mem)
  end.

Definition m_checksum (p : SavePage) (mem : Retained) : Z :=
  match p with
  | m_a => checksumA (retainedData mem)
  | m_b => checksumB (retainedData mem)
  end.

(** Writing through them. *)
Definition set_data (p : SavePage) (d : T) (mem : Retained) : Retained :=
  match p with
  | m_a => {| retainedPageA := d;
              retainedPageB := retainedPageB mem;
              retainedData := retainedData mem |}
  | m_b => {| retainedPageA := retainedPageA mem;
              retainedPageB := d;
              retainedData := retainedData mem |}
  end.

Definition set_seqNum (p : SavePage) (s : Z) (mem : Retained) : Retained :=
  let md := retainedData mem in
  {| retainedPageA := retainedPageA mem;
     retainedPageB := retainedPageB mem;
     retainedData :=
       match p with
       | m_a => {| seqNumA := s; seqNumB := seqNumB md;
                   checksumA := checksumA md; checksumB := checksumB md |}
       | m_b => {| seqNumA := seqNumA md; seqNumB := s;
                   checksumA := checksumA md; checksumB := checksumB md |}
       end |}.

Definition set_checksum (p : SavePage) (c : Z) (mem : Retained) : Retained :=
  let md := retainedData mem in
  {| retainedPageA := retainedPageA mem;
     retainedPageB := retainedPageB mem;
     retainedData :=
       match p with
       | m_a => {| seqNumA := seqNumA md; seqNumB := seqNumB md;
                   checksumA := c; checksumB := checksumB md |}
       | m_b => {| seqNumA := seqNumA md; seqNumB := seqNumB md;
                   checksumA := checksumA md; checksumB := c |}
       end |}.

(** ** SavePage *)

(** The loop of [calculateChecksum]:
    [do { sum += *(p++); } while (p < pEnd);]
    The body runs before the test, so the first byte is always added.  On
    the empty list, which is the image of no C++ type, the sum is returned
    as it is. *)
Fixpoint sum_loop (p : T) (sum : Z) : Z :=
  match p with
  | [] => sum
  | b :: p' =>
      let sum := u32 (sum + byte_val b) in
      match p' with
      | [] => sum
      | _ :: _ => sum_loop p' sum
      end
  end.

Definition calculateChecksum (this : SavePage) (mem : Retained) : Z :=
  let sum := 0 in
  let sum := sum_loop (m_data this mem) sum in
  let sum := u32 (sum + Z.shiftr (Z.land 0xff00 (m_seqNum this mem)) 8) in
  let sum := u32 (sum + Z.land (m_seqNum this mem) 0xff) in
  not32 sum.

Definition init (this : SavePage) (initData : T) (mem : Retained) : Retained :=
  let mem := set_data this initData mem in
  set_seqNum this 1 mem.

Definition clearChecksum (this : SavePage) (mem : Retained) : Retained :=
  set_checksum this (not32 (m_checksum this mem)) mem.

Definition isValid (this : SavePage) (mem : Retained) : bool :=
  calculateChecksum this mem =? m_checksum this mem.

Definition writeChecksum (this : SavePage) (mem : Retained) : Retained :=
  set_checksum this (calculateChecksum this mem) mem.

(** [SavePage::operator=]: [this = rhs]. *)
Definition assign (this rhs : SavePage) (mem : Retained) : Retained :=
  if SavePage_eqb this rhs then mem
  else
    let mem := set_data this (m_data rhs mem) mem in
    let mem :=
      if m_seqNum rhs mem =? UINT16_MAX
      then set_seqNum this 1 mem
      else set_seqNum this (u16 (m_seqNum rhs mem + 1)) mem in
    set_checksum this (m_checksum rhs mem) mem.

(** ** ParticleRetainedAtomic *)

(** The object: the retained memory its pages refer to, and the two role
    pointers. *)
Record ParticleRetainedAtomic : Type := {
  retained : Retained;
  m_scratchpad : SavePage;
  m_saved : SavePage
}.

Definition save (this : ParticleRetainedAtomic) : ParticleRetainedAtomic :=
  let mem := retained this in
  let mem := writeChecksum (m_scratchpad this) mem in
  let mem := assign (m_saved this) (m_scratchpad this) mem in
  let mem := clearChecksum (m_saved this) mem in
  let a := m_saved this in
  {| retained := mem; m_scratchpad := a; m_saved := m_scratchpad this |}.

Definition getScratchpad (this : ParticleRetainedAtomic) : T :=
  m_data (m_scratchpad this) (retained this).

(** [operator->] is the address of what [getScratchpad] returns. *)
Definition arrow (this : ParticleRetainedAtomic) : T := getScratchpad this.

(** The caller storing a whole record through the reference returned by
    [getScratchpad]. *)
Definition writeScratchpad (r : T) (this : ParticleRetainedAtomic)
  : ParticleRetainedAtomic :=
  {| retained := set_data (m_scratchpad this) r (retained this);
     m_scratchpad := m_scratchpad this;
     m_saved := m_saved this |}.

(** What the constructor reports through [retlog.error]; trace-level
    messages are left out. *)
Inductive LogError : Type :=
| A_valid_seqNum_zero
| B_valid_seqNum_zero
| seqNum_validation_failed.

(** The constructor.  It returns the error log next to the object; there is
    no other way for it to report anything. *)
Definition ParticleRetainedAtomic_ctor (mem : Retained) (defaultValue : T)
  : list LogError * ParticleRetainedAtomic :=
  let '(log, this) :=
    if isValid m_a mem then
      let log := if m_seqNum m_a mem =? 0 then [A_valid_seqNum_zero] else [] in
      if isValid m_b mem then
        let log :=
          log ++ if m_seqNum m_b mem =? 0 then [B_valid_seqNum_zero] else [] in
        if (m_seqNum m_a mem >? m_seqNum m_b mem)
           || ((m_seqNum m_b mem =? UINT16_MAX) && (m_seqNum m_a mem =? 1))
        then
          (log, {| retained := mem; m_scratchpad := m_a; m_saved := m_b |})
        else if (m_seqNum m_b mem >? m_seqNum m_a mem)
                || ((m_seqNum m_a mem =? UINT16_MAX) && (m_seqNum m_b mem =? 1))
        then
          (log, {| retained := mem; m_scratchpad := m_b; m_saved := m_a |})
        else
          (log ++ [seqNum_validation_failed],
           {| retained := init m_a defaultValue mem;
              m_scratchpad := m_a; m_saved := m_b |})
      else
        (log, {| retained := mem; m_scratchpad := m_a; m_saved := m_b |})
    else if isValid m_b mem then
      ([], {| retained := mem; m_scratchpad := m_b; m_saved := m_a |})
    else
      ([], {| retained := init m_a defaultValue mem;
              m_scratchpad := m_a; m_saved := m_b |})
  in
  (log, save this).

(** The object alone. *)
Definition construct (mem : Retained) (defaultValue : T) : ParticleRetainedAtomic :=
  snd (ParticleRetainedAtomic_ctor mem defaultValue).

(** Exactly one of the two pages passes [isValid]. *)
Definition exactly_one_valid (mem : Retained) : bool :=
  xorb (isValid m_a mem) (isValid m_b mem).

(** ** The specification's wording *)

(** The successor of a sequence number as the specification gives it: plus
    one, and 1 after the largest value. *)
Definition next_seq_spec (s : Z) : Z :=
  if s =? 65535 then 1 else s + 1.

(** The plain sum of the bytes of a record. *)
Definition byte_sum (d : T) : Z :=
  foldr (fun b acc => byte_val b + acc) 0 d.

(** The checksum as the specification gives it: the sum modulo [2^32] of all
    record bytes, the high byte and the low byte of the sequence number,
    complemented on 32 bits. *)
Definition checksum_spec (d : T) (seq : Z) : Z :=
  2 ^ 32 - 1 - (byte_sum d + seq / 256 + seq mod 256) mod 2 ^ 32.

(** ** Definitions used in the statements *)

(** The two summands taken from the sequence number. *)
Definition seq_hi (s : Z) : Z := Z.shiftr (Z.land 0xff00 s) 8.
Definition seq_lo (s : Z) : Z := Z.land s 0xff.

(** The 32-bit sum that [calculateChecksum] complements. *)
Definition raw_sum (d : T) (s : Z) : Z := u32 (byte_sum d + seq_hi s + seq_lo s).

(** The three fields of a page gathered, so that an operation can be
    described by what it leaves in each page. *)
Definition page_state (p : SavePage) (mem : Retained) : T * Z * Z :=
  (m_data p mem, m_seqNum p mem, m_checksum p mem).

(** Validity as a function of the three fields. *)
Definition valid_fields (f : T * Z * Z) : bool :=
  let '(d, s, c) := f in not32 (raw_sum d s) =? c.

(** The sequence number [operator=] stores, as the code computes it. *)
Definition succ_seq (s : Z) : Z :=
  if s =? UINT16_MAX then 1 else u16 (s + 1).

(** The bound on [sizeof(T)] under which a byte sum plus the two
    sequence-number bytes stays below [2^31]. *)
Definition small_record (d : T) : Prop :=
  255 * Z.of_nat (length d) + 510 < 2 ^ 31.

(** The states a caller can bring a store over records of [n] bytes into:
    construct it over retained memory of that shape, store records through
    the scratchpad reference, and call [save]. *)
Inductive reachable (n : nat) : ParticleRetainedAtomic -> Prop :=
| reachable_ctor (mem : Retained) (defaultValue : T) :
    length (retainedPageA mem) = n ->
    length (retainedPageB mem) = n ->
    length defaultValue = n ->
    reachable n (construct mem defaultValue)
| reachable_write (this : ParticleRetainedAtomic) (r : T) :
    reachable n this ->
    length r = n ->
    reachable n (writeScratchpad r this)
| reachable_save (this : ParticleRetainedAtomic) :
    reachable n this ->
    reachable n (save this).

(** The shape every reachable state has. *)
Definition well_formed (n : nat) (this : ParticleRetainedAtomic) : Prop :=
  m_scratchpad this <> m_saved this
  /\ length (m_data m_a (retained this)) = n
  /\ length (m_data m_b (retained this)) = n.

(** The retained memory between the statements of [save]: after
    [m_scratchpad->writeChecksum()], and after [*m_saved = *m_scratchpad].
    A reset at either point leaves this memory to the next constructor. *)
Definition save_after_writeChecksum (this : ParticleRetainedAtomic) : Retained :=
  writeChecksum (m_scratchpad this) (retained this).

Definition save_after_copy (this : ParticleRetainedAtomic) : Retained :=
  assign (m_saved this) (m_scratchpad this) (save_after_writeChecksum this).

(** What [save] leaves and writes through the scratchpad keep: the role
    pointers differ, the saved page is valid, the scratchpad page carries the
    next sequence number and the complement of the saved page's checksum. *)
Definition committed (this : ParticleRetainedAtomic) : Prop :=
  m_scratchpad this <> m_saved this
  /\ isValid (m_saved this) (retained this) = true
  /\ m_seqNum (m_scratchpad this) (retained this) =
       succ_seq (m_seqNum (m_saved this) (retained this))
  /\ m_checksum (m_scratchpad this) (retained this) =
       not32 (m_checksum (m_saved this) (retained this)).

(** The error log of the constructor, condition by condition. *)
Definition expected_log (mem : Retained) : list LogError :=
  (if isValid m_a mem && (m_seqNum m_a mem =? 0)
   then [A_valid_seqNum_zero] else [])
  ++ (if isValid m_a mem && isValid m_b mem && (m_seqNum m_b mem =? 0)
      then [B_valid_seqNum_zero] else [])
  ++ (if isValid m_a mem && isValid m_b mem
         && (m_seqNum m_a mem =? m_seqNum m_b mem)
      then [seqNum_validation_failed] else []).

(** Only page B valid, under sequence number 0. *)
Definition zero_seq_mem : Retained :=
  {| retainedPageA := [x01; x02];
     retainedPageB := [x03; x04];
     retainedData := {| seqNumA := 5; seqNumB := 0;
                        checksumA := 1; checksumB := 4294967288 |} |}.

(** ** Sample states *)

(** A small retained memory used to exercise the statements: page A holds
    the committed record [01 02] under sequence number 258, page B the
    stale copy left by the commit. *)
Definition sample_mem : Retained :=
  {| retainedPageA := [x01; x02];
     retainedPageB := [x01; x02];
     retainedData := {| seqNumA := 258; seqNumB := 259;
                        checksumA := 4294967289; checksumB := 6 |} |}.

(** A store over [sample_mem], as the constructor leaves it. *)
Definition sample_store : ParticleRetainedAtomic :=
  {| retained := sample_mem; m_scratchpad := m_b; m_saved := m_a |}.

(** Two valid pages under one sequence number. *)
Definition tied_mem : Retained :=
  {| retainedPageA := [x01; x02];
     retainedPageB := [x02; x01];
     retainedData := {| seqNumA := 7; seqNumB := 7;
                        checksumA := 4294967285; checksumB := 4294967285 |} |}.

(** No valid page: both stored checksums are wrong. *)
Definition garbage_mem : Retained :=
  {| retainedPageA := [x01; x02];
     retainedPageB := [x03; x04];
     retainedData := {| seqNumA := 7; seqNumB := 9;
                        checksumA := 0; checksumB := 12345 |} |}.

(** Both pages valid, page A under 65535 and page B under 1: B holds the
    commit that followed A's. *)
Definition wrap_mem : Retained :=
  {| retainedPageA := [x0a];
     retainedPageB := [x0b];
     retainedData := {| seqNumA := 65535; seqNumB := 1;
                        checksumA := 4294966775; checksumB := 4294967283 |} |}.

(** The mirror image: page B under 65535 and page A under 1. *)
Definition wrap_mem_mirror : Retained :=
  {| retainedPageA := [x0a];
     retainedPageB := [x0b];
     retainedData := {| seqNumA := 1; seqNumB := 65535;
                        checksumA := 4294967284; checksumB := 4294966774 |} |}.

(** A record of 8421505 bytes: 8421504 bytes [ff] and one more byte.  Its
    byte sum reaches [2^31] within a few units, where a 32-bit sum and its
    complement meet. *)
Definition huge_record (tail : byte) : T :=
  replicate (N.to_nat 8421504) xff ++ [tail].

(** Retained memory of that shape that was never written by a store: both
    pages hold the record [d], all metadata is zero. *)
Definition blank_mem (d : T) : Retained :=
  {| retainedPageA := d;
     retainedPageB := d;
     retainedData := {| seqNumA := 0; seqNumB := 0;
                        checksumA := 0; checksumB := 0 |} |}.

(** * Arithmetic of the checksum *)

Lemma byte_val_range (b : byte) : 0 <= byte_val b <= 255.
Proof.
  unfold byte_val. pose proof (Byte.to_N_bounded b). lia.
Qed.

Lemma byte_val_inj (b c : byte) : byte_val b = byte_val c -> b = c.
Proof.
  unfold byte_val. intros H. apply N2Z.inj in H.
  pose proof (Byte.of_to_N b) as Hb. rewrite H, Byte.of_to_N in Hb.
  congruence.
Qed.

Lemma u32_range (x : Z) : 0 <= u32 x < 2 ^ 32.
Proof. unfold u32. apply Z.mod_pos_bound. lia. Qed.

Lemma u32_small (x : Z) : 0 <= x < 2 ^ 32 -> u32 x = x.
Proof. unfold u32. apply Z.mod_small. Qed.

Lemma u32_add_l (x y : Z) : u32 (u32 x + y) = u32 (x + y).
Proof. unfold u32. apply Zplus_mod_idemp_l. Qed.

Lemma not32_range (x : Z) : 0 <= not32 x < 2 ^ 32.
Proof. unfold not32. apply u32_range. Qed.

(** On a 32-bit value the complement is the subtraction from [2^32 - 1]. *)
Lemma not32_sub (x : Z) : 0 <= x < 2 ^ 32 -> not32 x = 2 ^ 32 - 1 - x.
Proof.
  intros Hx. unfold not32, u32, Z.lnot.
  replace (Z.pred (- x)) with ((2 ^ 32 - 1 - x) + (-1) * 2 ^ 32) by lia.
  rewrite Z.mod_add by lia. apply Z.mod_small. lia.
Qed.

Lemma not32_involutive (x : Z) : 0 <= x < 2 ^ 32 -> not32 (not32 x) = x.
Proof.
  intros Hx. rewrite (not32_sub x) by exact Hx.
  rewrite not32_sub by lia. lia.
Qed.

(** A 32-bit value never equals its own complement. *)
Lemma not32_neq (x : Z) : 0 <= x < 2 ^ 32 -> not32 x <> x.
Proof. intros Hx. rewrite not32_sub by exact Hx. lia. Qed.

Lemma seq_lo_mod (s : Z) : seq_lo s = s mod 256.
Proof. unfold seq_lo. change 255 with (Z.ones 8). now rewrite Z.land_ones. Qed.

Lemma seq_hi_div (s : Z) : seq_hi s = (s / 256) mod 256.
Proof.
  unfold seq_hi. rewrite Z.shiftr_land.
  change (Z.shiftr 65280 8) with (Z.ones 8).
  rewrite Z.land_comm, Z.land_ones, Z.shiftr_div_pow2 by lia.
  reflexivity.
Qed.

Lemma seq_lo_range (s : Z) : 0 <= seq_lo s <= 255.
Proof. rewrite seq_lo_mod. pose proof (Z.mod_pos_bound s 256). lia. Qed.

Lemma seq_hi_range (s : Z) : 0 <= seq_hi s <= 255.
Proof. rewrite seq_hi_div. pose proof (Z.mod_pos_bound (s / 256) 256). lia. Qed.

Lemma seq_hi_u16 (s : Z) : 0 <= s <= 65535 -> seq_hi s = s / 256.
Proof.
  intros Hs. rewrite seq_hi_div. apply Z.mod_small.
  split; [apply Z.div_pos; lia | apply Z.div_lt_upper_bound; lia].
Qed.

Lemma byte_sum_nil : byte_sum [] = 0.
Proof. reflexivity. Qed.

Lemma byte_sum_cons (b : byte) (d : T) : byte_sum (b :: d) = byte_val b + byte_sum d.
Proof. reflexivity. Qed.

Lemma byte_sum_app (d e : T) : byte_sum (d ++ e) = byte_sum d + byte_sum e.
Proof.
  induction d as [|b d IH]; [reflexivity|].
  rewrite <- app_comm_cons, !byte_sum_cons, IH. lia.
Qed.

Lemma byte_sum_range (d : T) : 0 <= byte_sum d <= 255 * Z.of_nat (length d).
Proof.
  induction d as [|b d IH]; [cbn; lia|].
  rewrite byte_sum_cons, length_cons. pose proof (byte_val_range b). lia.
Qed.

(** One turn of the [do ... while] loop. *)
Lemma sum_loop_cons (b : byte) (p : T) (sum : Z) :
  sum_loop (b :: p) sum = sum_loop p (u32 (sum + byte_val b)).
Proof. destruct p; reflexivity. Qed.

(** The loop adds up all bytes, reducing modulo [2^32] on the way. *)
Lemma sum_loop_byte_sum (p : T) (sum : Z) :
  0 <= sum < 2 ^ 32 -> sum_loop p sum = u32 (sum + byte_sum p).
Proof.
  revert sum. induction p as [|b p IH]; intros sum Hs.
  - rewrite byte_sum_nil, Z.add_0_r, u32_small; [reflexivity | exact Hs].
  - rewrite sum_loop_cons, IH by apply u32_range.
    rewrite u32_add_l, byte_sum_cons. f_equal. lia.
Qed.

Lemma raw_sum_range (d : T) (s : Z) : 0 <= raw_sum d s < 2 ^ 32.
Proof. apply u32_range. Qed.

Lemma calculateChecksum_raw (this : SavePage) (mem : Retained) :
  calculateChecksum this mem = not32 (raw_sum (m_data this mem) (m_seqNum this mem)).
Proof.
  unfold calculateChecksum, raw_sum. cbv zeta.
  rewrite sum_loop_byte_sum by lia.
  fold (seq_hi (m_seqNum this mem)). fold (seq_lo (m_seqNum this mem)).
  rewrite Z.add_0_l.
  rewrite (u32_add_l (byte_sum (m_data this mem))), u32_add_l. reflexivity.
Qed.

Lemma calculateChecksum_range (this : SavePage) (mem : Retained) :
  0 <= calculateChecksum this mem < 2 ^ 32.
Proof. rewrite calculateChecksum_raw. apply not32_range. Qed.

(** * Reading after writing *)

Lemma SavePage_eqb_eq (p q : SavePage) : SavePage_eqb p q = true <-> p = q.
Proof. destruct p, q; cbn; split; congruence. Qed.

Lemma SavePage_eqb_neq (p q : SavePage) : SavePage_eqb p q = false <-> p <> q.
Proof. destruct p, q; cbn; split; congruence. Qed.

Lemma SavePage_other (p q r : SavePage) : p <> q -> r = p \/ r = q.
Proof. destruct p, q, r; intros H; try congruence; auto. Qed.

Ltac by_pages :=
  repeat match goal with
         | p : SavePage |- _ => destruct p
         end;
  try congruence; try reflexivity.

Lemma page_state_set_data (p q : SavePage) (d : T) (mem : Retained) :
  page_state q (set_data p d mem) =
  if SavePage_eqb q p then (d, m_seqNum q mem, m_checksum q mem)
  else page_state q mem.
Proof. by_pages. Qed.

Lemma m_seqNum_set_data (p q : SavePage) (d : T) (mem : Retained) :
  m_seqNum q (set_data p d mem) = m_seqNum q mem.
Proof. by_pages. Qed.

Lemma page_state_set_seqNum (p q : SavePage) (s : Z) (mem : Retained) :
  page_state q (set_seqNum p s mem) =
  if SavePage_eqb q p then (m_data q mem, s, m_checksum q mem)
  else page_state q mem.
Proof. by_pages. Qed.

Lemma page_state_set_checksum (p q : SavePage) (c : Z) (mem : Retained) :
  page_state q (set_checksum p c mem) =
  if SavePage_eqb q p then (m_data q mem, m_seqNum q mem, c)
  else page_state q mem.
Proof. by_pages. Qed.

(** The checksum and the validity of a page depend on its own three fields
    only. *)
Lemma calculateChecksum_ext (p q : SavePage) (mem mem' : Retained) :
  m_data p mem = m_data q mem' ->
  m_seqNum p mem = m_seqNum q mem' ->
  calculateChecksum p mem = calculateChecksum q mem'.
Proof. intros Hd Hs. unfold calculateChecksum. now rewrite Hd, Hs. Qed.

Lemma isValid_fields (p : SavePage) (mem : Retained) :
  isValid p mem = valid_fields (page_state p mem).
Proof. unfold isValid. now rewrite calculateChecksum_raw. Qed.

Lemma succ_seq_spec (s : Z) : 0 <= s <= 65535 -> succ_seq s = next_seq_spec s.
Proof.
  intros Hs. unfold succ_seq, next_seq_spec, UINT16_MAX, u16.
  destruct (Z.eqb_spec s 65535); [reflexivity|].
  apply Z.mod_small. lia.
Qed.

Lemma succ_seq_neq (s : Z) : succ_seq s <> s.
Proof.
  unfold succ_seq, UINT16_MAX, u16.
  destruct (Z.eqb_spec s 65535) as [->|Hne]; [lia|].
  intros H. pose proof (Z.mod_pos_bound (s + 1) (2 ^ 16)) as Hb.
  rewrite H in Hb.
  rewrite Z.mod_small in H by lia. lia.
Qed.

Lemma succ_seq_range (s : Z) : 0 <= succ_seq s <= 65535.
Proof.
  unfold succ_seq, UINT16_MAX, u16.
  destruct (s =? 65535); [lia|].
  pose proof (Z.mod_pos_bound (s + 1) (2 ^ 16)). lia.
Qed.

(** [operator=] between two different pages. *)
Lemma assign_distinct (this rhs : SavePage) (mem : Retained) :
  this <> rhs ->
  page_state this (assign this rhs mem) =
    (m_data rhs mem, succ_seq (m_seqNum rhs mem), m_checksum rhs mem)
  /\ page_state rhs (assign this rhs mem) = page_state rhs mem.
Proof.
  intros Hne. unfold assign, succ_seq.
  destruct mem as [pa pb [sa sb ca cb]].
  destruct this, rhs; try congruence; cbn;
    match goal with |- context [?s =? UINT16_MAX] => destruct (s =? UINT16_MAX) end;
    split; reflexivity.
Qed.

(** [operator=] of a page to itself changes nothing. *)
Lemma assign_self (this : SavePage) (mem : Retained) : assign this this mem = mem.
Proof. unfold assign. destruct this; reflexivity. Qed.

(** What one [save] leaves in the two pages when the role pointers differ:
    the committed page keeps its record and sequence number and receives its
    checksum; the other page receives the same record, the next sequence
    number and the complemented checksum. *)
Lemma save_distinct (this : ParticleRetainedAtomic) :
  m_scratchpad this <> m_saved this ->
  m_scratchpad (save this) = m_saved this
  /\ m_saved (save this) = m_scratchpad this
  /\ page_state (m_scratchpad this) (retained (save this)) =
       (getScratchpad this,
        m_seqNum (m_scratchpad this) (retained this),
        calculateChecksum (m_scratchpad this) (retained this))
  /\ page_state (m_saved this) (retained (save this)) =
       (getScratchpad this,
        succ_seq (m_seqNum (m_scratchpad this) (retained this)),
        not32 (calculateChecksum (m_scratchpad this) (retained this))).
Proof.
  intros Hne. destruct this as [mem p q]. cbn in Hne.
  unfold save, getScratchpad, succ_seq, clearChecksum, writeChecksum, assign.
  cbn [retained m_scratchpad m_saved].
  destruct mem as [pa pb [sa sb ca cb]].
  destruct p, q; try congruence; cbn;
    match goal with |- context [?s =? UINT16_MAX] => destruct (s =? UINT16_MAX) end;
    repeat split; reflexivity.
Qed.

(** * Validity of a page *)

Lemma not32_inj (x y : Z) :
  0 <= x < 2 ^ 32 -> 0 <= y < 2 ^ 32 -> not32 x = not32 y -> x = y.
Proof. intros Hx Hy. rewrite !not32_sub by assumption. lia. Qed.

(** A shift by less than [2^32] in either direction changes a 32-bit sum. *)
Lemma u32_shift_neq (a k : Z) : k <> 0 -> - 2 ^ 32 < k < 2 ^ 32 -> u32 (a + k) <> u32 a.
Proof.
  unfold u32. intros Hk Hr Heq.
  assert (Hz : (a + k - a) mod 2 ^ 32 = 0).
  { rewrite Zminus_mod, Heq, Z.sub_diag. reflexivity. }
  replace (a + k - a) with k in Hz by lia.
  apply Z.mod_divide in Hz; [|lia].
  destruct Hz as [q Hq].
  change (2 ^ 32) with 4294967296 in *. lia.
Qed.

(** Replacing one byte moves the byte sum by the difference of the two
    values. *)
Lemma byte_sum_insert (d : T) (i : nat) (old new : byte) :
  d !! i = Some old ->
  byte_sum (<[i:=new]> d) = byte_sum d - byte_val old + byte_val new.
Proof.
  intros Hi.
  rewrite insert_take_drop by (eapply lookup_lt_Some; exact Hi).
  pose proof (f_equal byte_sum (take_drop_middle d i old Hi)) as Hd.
  rewrite byte_sum_app, byte_sum_cons in Hd.
  rewrite byte_sum_app, byte_sum_cons. lia.
Qed.

(** The name of a page decides nothing: validity is a property of the
    three fields. *)
Lemma valid_fields_true (d : T) (s c : Z) :
  valid_fields (d, s, c) = true <-> c = not32 (raw_sum d s).
Proof. cbn. rewrite Z.eqb_eq. split; congruence. Qed.

Lemma valid_fields_false (d : T) (s c : Z) :
  valid_fields (d, s, c) = false <-> c <> not32 (raw_sum d s).
Proof. cbn. rewrite Z.eqb_neq. split; congruence. Qed.

(** After [writeChecksum] the page is valid. *)
Lemma writeChecksum_valid (p : SavePage) (mem : Retained) :
  isValid p (writeChecksum p mem) = true.
Proof.
  unfold isValid, writeChecksum.
  rewrite (calculateChecksum_ext p p (set_checksum p (calculateChecksum p mem) mem) mem)
    by (by_pages).
  destruct p; cbn; apply Z.eqb_refl.
Qed.

(** * Properties of a single page *)

Example sample_mem_A_valid : isValid m_a sample_mem = true.
Proof. reflexivity. Qed.

Example sample_mem_B_invalid : isValid m_b sample_mem = false.
Proof. reflexivity. Qed.

(** C6.  [calculateChecksum] is the 32-bit complement of the sum, modulo
    [2^32], of all record bytes, the high byte of the sequence number and its
    low byte, the two bytes being added one by one. *)
Theorem calculateChecksum_definition (this : SavePage) (mem : Retained) :
  0 <= m_seqNum this mem <= 65535 ->
  calculateChecksum this mem = checksum_spec (m_data this mem) (m_seqNum this mem).
Proof.
  intros Hs. rewrite calculateChecksum_raw, not32_sub by apply raw_sum_range.
  unfold checksum_spec, raw_sum, u32.
  now rewrite seq_hi_u16, seq_lo_mod by exact Hs.
Qed.

Lemma calculateChecksum_definition_witness :
  calculateChecksum m_a sample_mem = checksum_spec [x01; x02] 258.
Proof.
  apply (calculateChecksum_definition m_a sample_mem). cbn. lia.
Defined.

(** The sequence number does not enter as one 16-bit word: 258 contributes
    1 + 2, not 258. *)
Example checksum_adds_bytes_separately :
  calculateChecksum m_a sample_mem = 2 ^ 32 - 1 - (1 + 2 + (1 + 2))
  /\ calculateChecksum m_a sample_mem <> 2 ^ 32 - 1 - (1 + 2 + 258).
Proof. split; [reflexivity | discriminate]. Qed.

(** C7.  On a valid page, replacing any one byte of the record by a different
    value, the stored checksum staying as it is, makes [isValid] false. *)
Theorem corruption_detected
    (this : SavePage) (mem : Retained) (i : nat) (old new : byte) :
  isValid this mem = true ->
  m_data this mem !! i = Some old ->
  new <> old ->
  isValid this (set_data this (<[i:=new]> (m_data this mem)) mem) = false.
Proof.
  intros Hv Hi Hne.
  rewrite isValid_fields in Hv |- *.
  rewrite page_state_set_data.
  replace (SavePage_eqb this this) with true by (now destruct this).
  unfold page_state in Hv.
  apply valid_fields_true in Hv. apply valid_fields_false.
  rewrite Hv. intros Heq.
  apply not32_inj in Heq; try apply raw_sum_range.
  unfold raw_sum in Heq. rewrite (byte_sum_insert _ _ _ _ Hi) in Heq.
  pose proof (byte_val_range old) as Ho. pose proof (byte_val_range new) as Hn.
  assert (Hd : byte_val new <> byte_val old)
    by (intros Hbv; apply Hne, byte_val_inj, Hbv).
  set (a := byte_sum (m_data this mem) + seq_hi (m_seqNum this mem)
            + seq_lo (m_seqNum this mem)) in *.
  apply (u32_shift_neq a (byte_val new - byte_val old)); [lia | lia |].
  rewrite Heq. f_equal. lia.
Qed.

Lemma corruption_detected_witness :
  isValid m_a (set_data m_a (<[1%nat:=xff]> (m_data m_a sample_mem)) sample_mem) = false.
Proof.
  apply (corruption_detected m_a sample_mem 1%nat x02 xff);
    [reflexivity | reflexivity | discriminate].
Defined.

(** C8.  On a valid page, [clearChecksum] makes [isValid] false. *)
Theorem clearChecksum_invalidates (this : SavePage) (mem : Retained) :
  isValid this mem = true ->
  isValid this (clearChecksum this mem) = false.
Proof.
  intros Hv. unfold clearChecksum.
  rewrite isValid_fields in Hv |- *.
  rewrite page_state_set_checksum.
  replace (SavePage_eqb this this) with true by (now destruct this).
  unfold page_state in Hv. apply valid_fields_true in Hv.
  apply valid_fields_false. rewrite Hv.
  apply not32_neq, not32_range.
Qed.

Lemma clearChecksum_invalidates_witness :
  isValid m_a (clearChecksum m_a sample_mem) = false.
Proof.
  apply (clearChecksum_invalidates m_a sample_mem). reflexivity.
Defined.

(** * Properties of [save] *)

Lemma getScratchpad_save (this : ParticleRetainedAtomic) :
  getScratchpad (save this) = getScratchpad this.
Proof.
  unfold getScratchpad.
  destruct (decide (m_scratchpad this = m_saved this)) as [Heq|Hne].
  - unfold save. cbn [retained m_scratchpad m_saved]. rewrite <- Heq.
    rewrite assign_self. unfold clearChecksum, writeChecksum.
    destruct (m_scratchpad this); reflexivity.
  - destruct (save_distinct this Hne) as (Hs & _ & _ & Hy).
    rewrite Hs. unfold page_state, getScratchpad in Hy. congruence.
Qed.

(** C10.  [save] leaves the record seen through [getScratchpad] and
    [operator->] as it was, while the scratchpad pointer moves to the page
    that was the saved one. *)
Theorem save_keeps_scratchpad_record (this : ParticleRetainedAtomic) :
  getScratchpad (save this) = getScratchpad this
  /\ arrow (save this) = arrow this
  /\ m_scratchpad (save this) = m_saved this.
Proof.
  unfold arrow. rewrite getScratchpad_save. auto.
Qed.

(** C5.  [operator=] gives the destination the source's sequence number plus
    one, and 1 when the source holds 65535.  Hence the sequence number that
    a commit writes is the successor of the one it commits, the next commit
    writes the successor of that, and none of them is 0. *)
Theorem copy_advances_sequence_number
    (dst src : SavePage) (mem : Retained)
    (this : ParticleRetainedAtomic) (r : T) :
  dst <> src ->
  0 <= m_seqNum src mem <= 65535 ->
  m_scratchpad this <> m_saved this ->
  0 <= m_seqNum (m_scratchpad this) (retained this) <= 65535 ->
  m_seqNum dst (assign dst src mem) =
    (if m_seqNum src mem =? 65535 then 1 else m_seqNum src mem + 1)
  /\ let committed := m_seqNum (m_scratchpad this) (retained this) in
     let first := save this in
     let second := save (writeScratchpad r first) in
     let written1 := m_seqNum (m_scratchpad first) (retained first) in
     let written2 := m_seqNum (m_scratchpad second) (retained second) in
     written1 = next_seq_spec committed
     /\ written2 = next_seq_spec written1
     /\ m_seqNum (m_saved second) (retained second) = written1
     /\ written1 <> 0 /\ written2 <> 0.
Proof.
  intros Hds Hsrc Hne Hseq. split.
  - destruct (assign_distinct dst src mem Hds) as [Hd _].
    unfold page_state in Hd.
    replace (m_seqNum dst (assign dst src mem)) with (succ_seq (m_seqNum src mem))
      by congruence.
    apply succ_seq_spec, Hsrc.
  - cbv zeta.
    destruct (save_distinct this Hne) as (Hs1 & Hv1 & Hx1 & Hy1).
    unfold page_state, getScratchpad in Hx1, Hy1.
    set (first := save this) in *.
    assert (Hw1 : m_seqNum (m_scratchpad first) (retained first) =
                  succ_seq (m_seqNum (m_scratchpad this) (retained this)))
      by (rewrite Hs1; congruence).
    assert (Hne' : m_scratchpad (writeScratchpad r first) <>
                   m_saved (writeScratchpad r first))
      by (cbn; congruence).
    destruct (save_distinct _ Hne') as (Hs2 & Hv2 & Hx2 & Hy2).
    unfold page_state, getScratchpad in Hx2, Hy2.
    set (second := save (writeScratchpad r first)) in *.
    assert (Hsame : m_seqNum (m_scratchpad (writeScratchpad r first))
                      (retained (writeScratchpad r first)) =
                    m_seqNum (m_scratchpad first) (retained first)).
    { apply m_seqNum_set_data. }
    assert (Hw2 : m_seqNum (m_scratchpad second) (retained second) =
                  succ_seq (m_seqNum (m_scratchpad first) (retained first))).
    { rewrite Hs2, <- Hsame. congruence. }
    assert (Hc2 : m_seqNum (m_saved second) (retained second) =
                  m_seqNum (m_scratchpad first) (retained first)).
    { rewrite Hv2, <- Hsame. congruence. }
    pose proof (succ_seq_range (m_seqNum (m_scratchpad this) (retained this))) as Hr1.
    rewrite <- Hw1 in Hr1.
    rewrite Hw2, Hc2, Hw1.
    rewrite <- !succ_seq_spec by (rewrite <- ?Hw1; lia).
    rewrite <- Hw1.
    repeat split; try reflexivity.
    + rewrite Hw1, succ_seq_spec by lia. unfold next_seq_spec.
      destruct (_ =? 65535); lia.
    + rewrite succ_seq_spec by lia. unfold next_seq_spec.
      destruct (_ =? 65535); lia.
Qed.

Lemma copy_advances_sequence_number_witness :
  m_seqNum m_b (assign m_b m_a sample_mem) = 259
  /\ m_seqNum m_a (retained (save sample_store)) = 260.
Proof.
  pose proof (copy_advances_sequence_number m_b m_a sample_mem sample_store [xff; x00])
    as H.
  destruct H as [H1 (H2 & _)]; try (cbn; lia); try discriminate.
  split; [exact H1 | exact H2].
Defined.

(** The page committed by [save] is valid afterwards. *)
Lemma save_committed_valid (this : ParticleRetainedAtomic) :
  m_scratchpad this <> m_saved this ->
  isValid (m_saved (save this)) (retained (save this)) = true.
Proof.
  intros Hne. destruct (save_distinct this Hne) as (_ & Hv & Hx & _).
  rewrite Hv, isValid_fields, Hx. apply valid_fields_true.
  apply calculateChecksum_raw.
Qed.

(** The page [save] turns into the new scratchpad is valid exactly when the
    two 32-bit sums, before and after the sequence number moved on, are
    complements of each other. *)
Lemma save_stale_valid_iff (this : ParticleRetainedAtomic) :
  m_scratchpad this <> m_saved this ->
  isValid (m_scratchpad (save this)) (retained (save this)) = true <->
  raw_sum (getScratchpad this) (m_seqNum (m_scratchpad this) (retained this))
  + raw_sum (getScratchpad this)
      (succ_seq (m_seqNum (m_scratchpad this) (retained this)))
  = 2 ^ 32 - 1.
Proof.
  intros Hne. destruct (save_distinct this Hne) as (Hs & _ & _ & Hy).
  rewrite Hs, isValid_fields, Hy, valid_fields_true.
  rewrite calculateChecksum_raw. fold (getScratchpad this).
  set (a := raw_sum _ (m_seqNum _ _)). set (b := raw_sum _ (succ_seq _)).
  pose proof (raw_sum_range (getScratchpad this)
                (m_seqNum (m_scratchpad this) (retained this))) as Ha.
  pose proof (raw_sum_range (getScratchpad this)
                (succ_seq (m_seqNum (m_scratchpad this) (retained this)))) as Hb.
  fold a in Ha. fold b in Hb.
  rewrite not32_involutive by exact Ha.
  rewrite not32_sub by exact Hb. lia.
Qed.

Lemma raw_sum_small (d : T) (s : Z) :
  small_record d -> raw_sum d s = byte_sum d + seq_hi s + seq_lo s.
Proof.
  unfold small_record. intros Hd. unfold raw_sum. apply u32_small.
  pose proof (byte_sum_range d). pose proof (seq_hi_range s).
  pose proof (seq_lo_range s). lia.
Qed.

Lemma save_stale_invalid (this : ParticleRetainedAtomic) :
  m_scratchpad this <> m_saved this ->
  small_record (getScratchpad this) ->
  isValid (m_scratchpad (save this)) (retained (save this)) = false.
Proof.
  intros Hne Hsmall. apply not_true_is_false. intros Hv.
  apply (save_stale_valid_iff this Hne) in Hv.
  rewrite !raw_sum_small in Hv by exact Hsmall.
  unfold small_record in Hsmall.
  pose proof (byte_sum_range (getScratchpad this)).
  pose proof (seq_hi_range (m_seqNum (m_scratchpad this) (retained this))).
  pose proof (seq_lo_range (m_seqNum (m_scratchpad this) (retained this))).
  pose proof (seq_hi_range (succ_seq (m_seqNum (m_scratchpad this) (retained this)))).
  pose proof (seq_lo_range (succ_seq (m_seqNum (m_scratchpad this) (retained this)))).
  lia.
Qed.

Lemma exactly_one_valid_roles (this : ParticleRetainedAtomic) :
  m_scratchpad this <> m_saved this ->
  isValid (m_saved this) (retained this) = true ->
  isValid (m_scratchpad this) (retained this) = false ->
  exactly_one_valid (retained this) = true.
Proof.
  unfold exactly_one_valid. intros Hne Hv Hi.
  destruct (m_scratchpad this), (m_saved this); try congruence;
    rewrite Hv, Hi; reflexivity.
Qed.

Lemma save_exactly_one_valid (this : ParticleRetainedAtomic) :
  m_scratchpad this <> m_saved this ->
  small_record (getScratchpad this) ->
  exactly_one_valid (retained (save this)) = true.
Proof.
  intros Hne Hsmall. apply exactly_one_valid_roles.
  - destruct (save_distinct this Hne) as (-> & -> & _). congruence.
  - apply save_committed_valid, Hne.
  - apply save_stale_invalid; assumption.
Qed.

(** * The constructor *)

(** The constructor either recovers a valid page [p] and commits it, or
    falls back to the default value in page A; the fallback is taken when no
    page is valid and when both are valid under one sequence number. *)
Lemma ctor_cases (mem : Retained) (defaultValue : T) :
  (exists p q, p <> q /\ isValid p mem = true
     /\ construct mem defaultValue =
        save {| retained := mem; m_scratchpad := p; m_saved := q |})
  \/ (((isValid m_a mem = false /\ isValid m_b mem = false)
       \/ (isValid m_a mem = true /\ isValid m_b mem = true
           /\ m_seqNum m_a mem = m_seqNum m_b mem))
      /\ construct mem defaultValue =
         save {| retained := init m_a defaultValue mem;
                 m_scratchpad := m_a; m_saved := m_b |}).
Proof.
  unfold construct, ParticleRetainedAtomic_ctor.
  destruct (isValid m_a mem) eqn:Ha, (isValid m_b mem) eqn:Hb.
  - destruct ((m_seqNum m_a mem >? m_seqNum m_b mem)
              || ((m_seqNum m_b mem =? UINT16_MAX) && (m_seqNum m_a mem =? 1)))
      eqn:H1.
    { left. exists m_a, m_b. repeat split; [discriminate | exact Ha]. }
    destruct ((m_seqNum m_b mem >? m_seqNum m_a mem)
              || ((m_seqNum m_a mem =? UINT16_MAX) && (m_seqNum m_b mem =? 1)))
      eqn:H2.
    { left. exists m_b, m_a. repeat split; [discriminate | exact Hb]. }
    right. split; [right | reflexivity].
    apply orb_false_iff in H1 as [H1 _]. apply orb_false_iff in H2 as [H2 _].
    repeat split. lia.
  - left. exists m_a, m_b. repeat split; [discriminate | exact Ha].
  - left. exists m_b, m_a. repeat split; [discriminate | exact Hb].
  - right. split; [left; split; reflexivity | reflexivity].
Qed.

Lemma construct_distinct (mem : Retained) (defaultValue : T) :
  m_scratchpad (construct mem defaultValue) <> m_saved (construct mem defaultValue).
Proof.
  destruct (ctor_cases mem defaultValue)
    as [(p & q & Hne & _ & ->) | (_ & ->)]; cbn; congruence.
Qed.

(** The fallback branch, spelled out. *)
Lemma ctor_no_valid_page (mem : Retained) (defaultValue : T) :
  isValid m_a mem = false -> isValid m_b mem = false ->
  ParticleRetainedAtomic_ctor mem defaultValue =
  ([], save {| retained := init m_a defaultValue mem;
               m_scratchpad := m_a; m_saved := m_b |}).
Proof.
  intros Ha Hb. unfold ParticleRetainedAtomic_ctor. now rewrite Ha, Hb.
Qed.

Lemma ctor_equal_seqNum (mem : Retained) (defaultValue : T) :
  isValid m_a mem = true -> isValid m_b mem = true ->
  m_seqNum m_a mem = m_seqNum m_b mem ->
  exists log,
    ParticleRetainedAtomic_ctor mem defaultValue =
    (log ++ [seqNum_validation_failed],
     save {| retained := init m_a defaultValue mem;
             m_scratchpad := m_a; m_saved := m_b |}).
Proof.
  intros Ha Hb Heq. unfold ParticleRetainedAtomic_ctor.
  rewrite Ha, Hb, Heq, Z.gtb_ltb, Z.ltb_irrefl.
  replace ((m_seqNum m_b mem =? UINT16_MAX) && (m_seqNum m_b mem =? 1)) with false.
  - cbn [orb]. eexists. reflexivity.
  - unfold UINT16_MAX. symmetry. apply andb_false_iff.
    destruct (Z.eqb_spec (m_seqNum m_b mem) 65535) as [->|]; auto.
Qed.

(** What the fallback leaves: page A committed with the default value under
    sequence number 1, page B as the scratchpad holding the same record. *)
Lemma fallback_state (mem : Retained) (defaultValue : T) :
  let this := save {| retained := init m_a defaultValue mem;
                      m_scratchpad := m_a; m_saved := m_b |} in
  m_scratchpad this = m_b /\ m_saved this = m_a
  /\ m_data m_a (retained this) = defaultValue
  /\ m_seqNum m_a (retained this) = 1
  /\ m_data m_b (retained this) = defaultValue
  /\ m_seqNum m_b (retained this) = 2
  /\ isValid m_a (retained this) = true.
Proof.
  cbv zeta.
  set (st := {| retained := init m_a defaultValue mem;
                m_scratchpad := m_a; m_saved := m_b |}).
  assert (Hne : m_scratchpad st <> m_saved st) by discriminate.
  pose proof (save_committed_valid st Hne) as Hv.
  destruct (save_distinct st Hne) as (Hs & Hsv & Hx & Hy).
  rewrite Hsv in Hv.
  unfold page_state in Hx, Hy.
  change (m_scratchpad st) with m_a in *. change (m_saved st) with m_b in *.
  change (getScratchpad st) with defaultValue in *.
  change (m_seqNum m_a (retained st)) with 1 in *.
  change (succ_seq 1) with 2 in *.
  repeat split; congruence.
Qed.

(** C9.  When both pages are valid and carry the same sequence number, the
    constructor reinitializes page A from the default value and finishes:
    it returns an object, its only report being one entry in the error log,
    and the committed record is the default value. *)
Theorem sequence_ambiguity_fallback (mem : Retained) (defaultValue : T) :
  isValid m_a mem = true ->
  isValid m_b mem = true ->
  m_seqNum m_a mem = m_seqNum m_b mem ->
  let this := construct mem defaultValue in
  this = save {| retained := init m_a defaultValue mem;
                 m_scratchpad := m_a; m_saved := m_b |}
  /\ m_saved this = m_a
  /\ m_data (m_saved this) (retained this) = defaultValue
  /\ isValid (m_saved this) (retained this) = true
  /\ getScratchpad this = defaultValue
  /\ last (fst (ParticleRetainedAtomic_ctor mem defaultValue)) =
     Some seqNum_validation_failed.
Proof.
  intros Ha Hb Heq.
  destruct (ctor_equal_seqNum mem defaultValue Ha Hb Heq) as [log Hctor].
  unfold construct. rewrite Hctor. cbn [fst snd].
  destruct (fallback_state mem defaultValue) as (Hs & Hv & Hda & _ & Hdb & _ & Hva).
  cbv zeta in *. unfold getScratchpad. rewrite Hs, Hv.
  repeat split; try assumption. apply last_snoc.
Qed.

Lemma sequence_ambiguity_fallback_witness :
  getScratchpad (construct tied_mem [xff; xff]) = [xff; xff].
Proof.
  apply (sequence_ambiguity_fallback tied_mem [xff; xff]); reflexivity.
Defined.



(** * The single-valid invariant *)

Section SingleValid.

(** [sizeof(T)], and the bound under which the invariant holds. *)
Variable n : nat.
Hypothesis n_small : 255 * Z.of_nat n + 510 < 2 ^ 31.

Lemma save_well_formed (this : ParticleRetainedAtomic) :
  well_formed n this -> well_formed n (save this).
Proof.
  intros (Hne & Hla & Hlb).
  destruct (save_distinct this Hne) as (Hs & Hv & Hx & Hy).
  unfold page_state in Hx, Hy.
  assert (Hlen : length (getScratchpad this) = n)
    by (unfold getScratchpad; destruct (m_scratchpad this); assumption).
  assert (Hdx : m_data (m_scratchpad this) (retained (save this)) = getScratchpad this)
    by congruence.
  assert (Hdy : m_data (m_saved this) (retained (save this)) = getScratchpad this)
    by congruence.
  split; [congruence|].
  destruct (m_scratchpad this), (m_saved this); try congruence;
    rewrite Hdx, Hdy; auto.
Qed.

(** The constructor ends with a [save] on a well-formed state. *)
Lemma construct_well_formed (mem : Retained) (defaultValue : T) :
  length (retainedPageA mem) = n ->
  length (retainedPageB mem) = n ->
  length defaultValue = n ->
  exists pre, construct mem defaultValue = save pre /\ well_formed n pre.
Proof.
  intros Hla Hlb Hld.
  destruct (ctor_cases mem defaultValue)
    as [(p & q & Hne & _ & Hc) | (_ & Hc)]; eexists; (split; [exact Hc|]).
  - repeat split; assumption.
  - repeat split; [discriminate | assumption | assumption].
Qed.

(** Well-formedness is an invariant of the reachable states. *)
Lemma reachable_well_formed (this : ParticleRetainedAtomic) :
  reachable n this -> well_formed n this.
Proof.
  induction 1 as [mem d Hla Hlb Hld | this r _ IH Hr | this _ IH].
  - destruct (construct_well_formed mem d Hla Hlb Hld) as (pre & -> & Hwf).
    apply save_well_formed, Hwf.
  - destruct IH as (Hne & Ha & Hb). repeat split; [exact Hne | |];
      cbn [writeScratchpad retained]; destruct (m_scratchpad this); assumption.
  - apply save_well_formed, IH.
Qed.

Lemma well_formed_small (this : ParticleRetainedAtomic) :
  well_formed n this -> small_record (getScratchpad this).
Proof.
  intros (_ & Ha & Hb). unfold small_record, getScratchpad.
  destruct (m_scratchpad this); cbn [m_data] in *; congruence.
Qed.

Lemma save_single_valid (this : ParticleRetainedAtomic) :
  well_formed n this ->
  isValid (m_saved (save this)) (retained (save this)) = true
  /\ isValid (m_scratchpad (save this)) (retained (save this)) = false
  /\ exactly_one_valid (retained (save this)) = true.
Proof.
  intros Hwf. pose proof (well_formed_small this Hwf) as Hsmall.
  destruct Hwf as (Hne & _).
  repeat split.
  - apply save_committed_valid, Hne.
  - apply save_stale_invalid; assumption.
  - apply save_exactly_one_valid; assumption.
Qed.

(** X15.  For a record type of [n] bytes with
    [255 * n + 510 < 2^31] (at most 8421502 bytes), after the [save] that ends
    construction and after every later [save], the committed page is valid
    and the other page is not: exactly one page passes [isValid]. *)
Theorem single_valid_after_save :
  (forall (mem : Retained) (defaultValue : T),
      length (retainedPageA mem) = n ->
      length (retainedPageB mem) = n ->
      length defaultValue = n ->
      let this := construct mem defaultValue in
      isValid (m_saved this) (retained this) = true
      /\ isValid (m_scratchpad this) (retained this) = false
      /\ exactly_one_valid (retained this) = true)
  /\ (forall this : ParticleRetainedAtomic,
         reachable n this ->
         isValid (m_saved (save this)) (retained (save this)) = true
         /\ isValid (m_scratchpad (save this)) (retained (save this)) = false
         /\ exactly_one_valid (retained (save this)) = true).
Proof.
  split.
  - intros mem d Hla Hlb Hld. cbv zeta.
    destruct (construct_well_formed mem d Hla Hlb Hld) as (pre & -> & Hwf).
    apply (save_single_valid pre Hwf).
  - intros this Hr. apply (save_single_valid this).
    apply reachable_well_formed, Hr.
Qed.

End SingleValid.

Lemma single_valid_after_save_witness :
  exactly_one_valid (retained (construct garbage_mem [xff; xff])) = true
  /\ exactly_one_valid
       (retained (save (writeScratchpad [x10; x20] (construct tied_mem [xff; xff]))))
     = true.
Proof.
  destruct (single_valid_after_save 2) as [Hctor Hsave]; [lia|].
  split.
  - apply (Hctor garbage_mem [xff; xff]); reflexivity.
  - apply Hsave. apply reachable_write; [|reflexivity].
    apply reachable_ctor; reflexivity.
Defined.

(** * Records beyond the bound *)

Lemma byte_sum_replicate (n : nat) (b : byte) :
  byte_sum (replicate n b) = Z.of_nat n * byte_val b.
Proof.
  induction n as [|n IH]; [reflexivity|].
  cbn [replicate]. rewrite byte_sum_cons, IH. lia.
Qed.

Lemma byte_sum_huge_record (tail : byte) :
  byte_sum (huge_record tail) = 2147483520 + byte_val tail.
Proof.
  unfold huge_record.
  rewrite byte_sum_app, byte_sum_replicate, N_nat_Z, byte_sum_cons, byte_sum_nil.
  change (byte_val xff) with 255. lia.
Qed.

Lemma length_huge_record (tail : byte) :
  Z.of_nat (length (huge_record tail)) = 8421505.
Proof.
  unfold huge_record.
  rewrite length_app, length_replicate, Nat2Z.inj_add, N_nat_Z. reflexivity.
Qed.

Lemma huge_record_not_small (tail : byte) : ~ small_record (huge_record tail).
Proof. unfold small_record. rewrite length_huge_record. lia. Qed.

(** A page of [blank_mem d] is invalid unless the bytes of [d] sum to
    [2^32 - 1] modulo [2^32]. *)
Lemma blank_mem_invalid (p : SavePage) (d : T) :
  u32 (byte_sum d) <> 2 ^ 32 - 1 -> isValid p (blank_mem d) = false.
Proof.
  intros Hd. rewrite isValid_fields.
  replace (page_state p (blank_mem d)) with (d, 0, 0) by (now destruct p).
  apply valid_fields_false. unfold raw_sum.
  change (seq_hi 0) with 0. change (seq_lo 0) with 0. rewrite !Z.add_0_r.
  rewrite not32_sub by apply u32_range. lia.
Qed.

(** On a blank memory the constructor commits the default value to page A
    under sequence number 1 and leaves page B, under sequence number 2, as
    the scratchpad. *)
Lemma construct_blank (d : T) :
  u32 (byte_sum d) <> 2 ^ 32 - 1 ->
  let this := construct (blank_mem d) d in
  m_scratchpad this = m_b /\ m_saved this = m_a
  /\ m_seqNum m_b (retained this) = 2
  /\ this = save {| retained := init m_a d (blank_mem d);
                    m_scratchpad := m_a; m_saved := m_b |}.
Proof.
  intros Hd. cbv zeta.
  pose proof (ctor_no_valid_page (blank_mem d) d
                (blank_mem_invalid m_a d Hd) (blank_mem_invalid m_b d Hd)) as Hc.
  unfold construct. rewrite Hc. cbn [snd].
  destruct (fallback_state (blank_mem d) d) as (Hs & Hv & _ & _ & _ & Hsb & _).
  cbv zeta in *. auto.
Qed.

(** With page A committed under sequence number 1, a default value whose
    bytes sum to [2^31 - 2] leaves page B valid as well. *)
Lemma fallback_both_valid (mem : Retained) (d : T) :
  byte_sum d = 2 ^ 31 - 2 ->
  let this := save {| retained := init m_a d mem;
                      m_scratchpad := m_a; m_saved := m_b |} in
  isValid m_a (retained this) = true /\ isValid m_b (retained this) = true.
Proof.
  intros Hd. cbv zeta.
  set (st := {| retained := init m_a d mem; m_scratchpad := m_a; m_saved := m_b |}).
  assert (Hne : m_scratchpad st <> m_saved st) by discriminate.
  pose proof (save_committed_valid st Hne) as Hv.
  pose proof (proj2 (save_stale_valid_iff st Hne)) as Hs.
  destruct (save_distinct st Hne) as (-> & -> & _) in Hv, Hs.
  change (m_scratchpad st) with m_a in *. change (m_saved st) with m_b in *.
  split; [exact Hv | apply Hs].
  change (getScratchpad st) with d. change (m_seqNum m_a (retained st)) with 1.
  unfold raw_sum. rewrite Hd. reflexivity.
Qed.

(** After a commit under sequence number 2, a record whose bytes sum to
    [2^31 - 3] leaves both pages valid. *)
Lemma save_both_valid (this : ParticleRetainedAtomic) (r : T) :
  m_scratchpad this = m_b -> m_saved this = m_a ->
  m_seqNum m_b (retained this) = 2 ->
  byte_sum r = 2 ^ 31 - 3 ->
  let after := save (writeScratchpad r this) in
  isValid m_a (retained after) = true /\ isValid m_b (retained after) = true.
Proof.
  intros Hsp Hsv Hseq Hr. cbv zeta.
  set (st := writeScratchpad r this).
  assert (Hsp' : m_scratchpad st = m_b) by exact Hsp.
  assert (Hsv' : m_saved st = m_a) by exact Hsv.
  assert (Hne : m_scratchpad st <> m_saved st) by congruence.
  pose proof (save_committed_valid st Hne) as Hv.
  pose proof (proj2 (save_stale_valid_iff st Hne)) as Hs.
  destruct (save_distinct st Hne) as (Hs1 & Hs2 & _).
  rewrite Hs2, Hsp' in Hv. rewrite Hs1, Hsv' in Hs.
  split; [apply Hs | exact Hv].
  assert (Hg : getScratchpad st = r).
  { unfold getScratchpad, st. cbn [writeScratchpad retained m_scratchpad].
    destruct (m_scratchpad this); reflexivity. }
  assert (Hq : m_seqNum (m_scratchpad st) (retained st) = 2).
  { rewrite Hsp'. unfold st. cbn [writeScratchpad retained].
    rewrite m_seqNum_set_data. exact Hseq. }
  rewrite Hg, Hq. unfold raw_sum. rewrite Hr. reflexivity.
Qed.

(** * Recovery *)

(** What the comparison of the sequence numbers amounts to when both pages
    are valid: page A is taken when its number is greater, or when it is 1
    and B's is 65535; page B is taken when its number is greater.  The
    second wrap-around test of the code is never reached with a true
    outcome, because 65535 > 1 already decides for page A. *)
Lemma double_valid_resolution (mem : Retained) (defaultValue : T) :
  isValid m_a mem = true -> isValid m_b mem = true ->
  let a := m_seqNum m_a mem in
  let b := m_seqNum m_b mem in
  (a > b \/ (b = 65535 /\ a = 1) ->
   construct mem defaultValue =
   save {| retained := mem; m_scratchpad := m_a; m_saved := m_b |})
  /\ (b > a /\ ~ (b = 65535 /\ a = 1) ->
      construct mem defaultValue =
      save {| retained := mem; m_scratchpad := m_b; m_saved := m_a |}).
Proof.
  intros Ha Hb a b. unfold construct, ParticleRetainedAtomic_ctor.
  rewrite Ha, Hb. fold a b. unfold UINT16_MAX.
  split; intros H.
  - replace ((a >? b) || ((b =? 65535) && (a =? 1))) with true; [reflexivity|].
    symmetry. apply orb_true_iff. rewrite andb_true_iff, !Z.eqb_eq, Z.gtb_gt.
    tauto.
  - replace ((a >? b) || ((b =? 65535) && (a =? 1))) with false.
    + replace (b >? a) with true; [reflexivity|].
      symmetry. apply Z.gtb_gt. tauto.
    + symmetry. apply orb_false_iff. rewrite andb_false_iff, !Z.eqb_neq.
      split; [|destruct (Z.eq_dec b 65535); [right|left]; tauto].
      rewrite Z.gtb_ltb. apply Z.ltb_ge. lia.
Qed.

Example wrap_mirror_selects_A (defaultValue : T) :
  isValid m_a wrap_mem_mirror = true /\ isValid m_b wrap_mem_mirror = true
  /\ m_saved (construct wrap_mem_mirror defaultValue) = m_a
  /\ getScratchpad (construct wrap_mem_mirror defaultValue) = [x0a].
Proof. vm_compute. auto. Qed.

(** C2 at A = 65535, B = 1.  Both pages are valid and the sequence number
    of B is the successor of A's, yet the constructor takes page A: A's
    record is the committed one and B's record is overwritten. *)
Theorem wrap_A_max_B_one_selects_A (defaultValue : T) :
  isValid m_a wrap_mem = true /\ isValid m_b wrap_mem = true
  /\ m_seqNum m_b wrap_mem = succ_seq (m_seqNum m_a wrap_mem)
  /\ m_saved (construct wrap_mem defaultValue) = m_a
  /\ m_data (m_saved (construct wrap_mem defaultValue))
       (retained (construct wrap_mem defaultValue)) = [x0a]
  /\ getScratchpad (construct wrap_mem defaultValue) = [x0a]
  /\ m_data m_b (retained (construct wrap_mem defaultValue)) <> [x0b].
Proof. vm_compute. repeat split; discriminate. Qed.

(** * Round trip *)

Lemma getScratchpad_writeScratchpad (r : T) (this : ParticleRetainedAtomic) :
  getScratchpad (writeScratchpad r this) = r.
Proof.
  unfold getScratchpad. cbn [writeScratchpad retained m_scratchpad].
  destruct (m_scratchpad this); reflexivity.
Qed.

(** Construction over the memory a [save] left behind recovers the record
    that [save] committed.  The committed page is valid, both pages hold the
    same record and their sequence numbers differ, so the recovery never
    falls back to the default value. *)
Lemma reopen_after_save (st : ParticleRetainedAtomic) (defaultValue : T) :
  m_scratchpad st <> m_saved st ->
  getScratchpad (construct (retained (save st)) defaultValue) = getScratchpad st.
Proof.
  intros Hne.
  pose proof (save_committed_valid st Hne) as Hv.
  destruct (save_distinct st Hne) as (Hs1 & Hs2 & Hx & Hy).
  rewrite Hs2 in Hv. unfold page_state in Hx, Hy.
  remember (getScratchpad st) as r eqn:Er. clear Er.
  remember (retained (save st)) as mem2 eqn:Emem2. clear Emem2.
  assert (Hdx : m_data (m_scratchpad st) mem2 = r) by congruence.
  assert (Hdy : m_data (m_saved st) mem2 = r) by congruence.
  assert (Hseq : m_seqNum (m_saved st) mem2 <> m_seqNum (m_scratchpad st) mem2).
  { replace (m_seqNum (m_saved st) mem2)
      with (succ_seq (m_seqNum (m_scratchpad st) (retained st))) by congruence.
    replace (m_seqNum (m_scratchpad st) mem2)
      with (m_seqNum (m_scratchpad st) (retained st)) by congruence.
    apply succ_seq_neq. }
  assert (Hall : forall p, m_data p mem2 = r).
  { intros p. destruct (SavePage_other _ _ p Hne) as [-> | ->]; assumption. }
  destruct (ctor_cases mem2 defaultValue)
    as [(p & q & _ & _ & ->) | ([(Ha & Hb) | (Ha & Hb & Heq)] & _)].
  - rewrite getScratchpad_save. apply Hall.
  - exfalso. destruct (m_scratchpad st); congruence.
  - exfalso. destruct (m_scratchpad st), (m_saved st); congruence.
Qed.

(** C1.  On any store (its two role pointers name different pages, as
    they do after construction and ever after), a record stored through the
    scratchpad and committed by [save] is the scratchpad record of a store
    constructed afterwards over the same retained memory, whatever default
    value that construction is given. *)
Theorem save_reopen_roundtrip
    (this : ParticleRetainedAtomic) (r defaultValue : T) :
  m_scratchpad this <> m_saved this ->
  let committed := save (writeScratchpad r this) in
  let reopened := construct (retained committed) defaultValue in
  getScratchpad reopened = r.
Proof.
  intros Hroles. cbv zeta.
  rewrite reopen_after_save by exact Hroles.
  apply getScratchpad_writeScratchpad.
Qed.

Lemma save_reopen_roundtrip_witness :
  getScratchpad
    (construct (retained (save (writeScratchpad [x10; x20] sample_store))) [xff; xff])
  = [x10; x20].
Proof.
  apply (save_reopen_roundtrip sample_store [x10; x20] [xff; xff]). discriminate.
Defined.

(** The same for a store fresh from its constructor, and for every state
    reachable from there. *)
Corollary construct_save_reopen
    (mem : Retained) (defaultValue defaultValue' r : T) :
  getScratchpad
    (construct
       (retained (save (writeScratchpad r (construct mem defaultValue))))
       defaultValue') = r.
Proof.
  rewrite reopen_after_save by apply (construct_distinct mem defaultValue).
  apply getScratchpad_writeScratchpad.
Qed.

Corollary reachable_save_reopen
    (n : nat) (this : ParticleRetainedAtomic) (r defaultValue : T) :
  reachable n this ->
  getScratchpad
    (construct (retained (save (writeScratchpad r this))) defaultValue) = r.
Proof.
  intros Hr. destruct (reachable_well_formed n this Hr) as (Hne & _).
  rewrite reopen_after_save by exact Hne.
  apply getScratchpad_writeScratchpad.
Qed.

(** * Beyond the single statements: pages *)

(** Two memories with the same fields in both pages are the same memory. *)
Lemma Retained_ext (mem mem' : Retained) :
  page_state m_a mem = page_state m_a mem' ->
  page_state m_b mem = page_state m_b mem' ->
  mem = mem'.
Proof.
  destruct mem as [pa pb [sa sb ca cb]], mem' as [pa' pb' [sa' sb' ca' cb']].
  unfold page_state. cbn. intros Ha Hb. congruence.
Qed.

(** The two sequence-number bytes of a successor never add up to those of
    the number itself. *)
Lemma seq_bytes_succ (s : Z) :
  0 <= s <= 65535 ->
  let k := seq_hi (succ_seq s) + seq_lo (succ_seq s) - (seq_hi s + seq_lo s) in
  k <> 0 /\ - 2 ^ 32 < k < 2 ^ 32.
Proof.
  intros Hs. cbv zeta.
  pose proof (succ_seq_range s) as Hr.
  rewrite (seq_hi_u16 (succ_seq s)), (seq_hi_u16 s), !seq_lo_mod by lia.
  rewrite succ_seq_spec by exact Hs. unfold next_seq_spec.
  destruct (Z.eqb_spec s 65535) as [->|Hne].
  - split; [discriminate | split; reflexivity].
  - change (2 ^ 32) with 4294967296. Z.div_mod_to_equations. lia.
Qed.

Lemma raw_sum_succ_neq (d : T) (s : Z) :
  0 <= s <= 65535 -> raw_sum d (succ_seq s) <> raw_sum d s.
Proof.
  intros Hs. destruct (seq_bytes_succ s Hs) as [Hk Hb]. cbv zeta in Hk, Hb.
  unfold raw_sum.
  replace (byte_sum d + seq_hi (succ_seq s) + seq_lo (succ_seq s))
    with (byte_sum d + seq_hi s + seq_lo s
          + (seq_hi (succ_seq s) + seq_lo (succ_seq s) - (seq_hi s + seq_lo s)))
    by lia.
  apply u32_shift_neq; assumption.
Qed.

Lemma byte_sum_Permutation (d d' : T) : d ≡ₚ d' -> byte_sum d = byte_sum d'.
Proof.
  induction 1 as [| b d d' _ IH | b c d | d d' d'' _ IH1 _ IH2].
  - reflexivity.
  - rewrite !byte_sum_cons, IH. reflexivity.
  - rewrite !byte_sum_cons. lia.
  - congruence.
Qed.

(** X1.  [writeChecksum] makes the page valid, whatever it held, keeps its
    record and sequence number, and leaves the other page as it was. *)
Theorem writeChecksum_makes_valid (this other : SavePage) (mem : Retained) :
  isValid this (writeChecksum this mem) = true
  /\ m_data this (writeChecksum this mem) = m_data this mem
  /\ m_seqNum this (writeChecksum this mem) = m_seqNum this mem
  /\ (other <> this ->
      page_state other (writeChecksum this mem) = page_state other mem).
Proof.
  split; [apply writeChecksum_valid|].
  unfold writeChecksum.
  split; [destruct this; reflexivity|].
  split; [destruct this; reflexivity|].
  intros Hne. rewrite page_state_set_checksum.
  apply SavePage_eqb_neq in Hne. now rewrite Hne.
Qed.

(** The copy made by [operator=] from a valid page. *)
Lemma assign_from_valid (dst src : SavePage) (mem : Retained) :
  dst <> src ->
  0 <= m_seqNum src mem <= 65535 ->
  isValid src mem = true ->
  isValid dst (assign dst src mem) = false
  /\ isValid src (assign dst src mem) = true
  /\ m_data dst (assign dst src mem) = m_data src mem.
Proof.
  intros Hne Hs Hv.
  destruct (assign_distinct dst src mem Hne) as [Hd Hsrc].
  rewrite !isValid_fields, Hd, Hsrc. rewrite isValid_fields in Hv.
  unfold page_state in Hv |- *. apply valid_fields_true in Hv.
  repeat split.
  - apply valid_fields_false. rewrite Hv. intros Heq.
    apply not32_inj in Heq; try apply raw_sum_range.
    symmetry in Heq. revert Heq. apply raw_sum_succ_neq, Hs.
  - apply valid_fields_true, Hv.
  - unfold page_state in Hd. congruence.
Qed.

(** X2.  Copying a valid page onto the other one with [operator=] leaves the
    destination invalid already before [clearChecksum]: the checksum is
    copied while the sequence number moves on.  The source stays valid.
    This holds for records of any size. *)
Theorem assign_leaves_copy_invalid (dst src : SavePage) (mem : Retained) :
  dst <> src ->
  0 <= m_seqNum src mem <= 65535 ->
  isValid src mem = true ->
  isValid dst (assign dst src mem) = false
  /\ isValid src (assign dst src mem) = true
  /\ m_data dst (assign dst src mem) = m_data src mem.
Proof. apply assign_from_valid. Qed.

Lemma assign_leaves_copy_invalid_witness :
  isValid m_b (assign m_b m_a sample_mem) = false.
Proof.
  apply (assign_leaves_copy_invalid m_b m_a sample_mem);
    [discriminate | cbn; lia | reflexivity].
Defined.

(** X3.  The checksum does not see the order of the record bytes: storing
    any rearrangement of the record into a page leaves [isValid] as it
    was. *)
Theorem checksum_blind_to_order (this : SavePage) (mem : Retained) (d' : T) :
  m_data this mem ≡ₚ d' ->
  calculateChecksum this (set_data this d' mem) = calculateChecksum this mem
  /\ isValid this (set_data this d' mem) = isValid this mem.
Proof.
  intros Hp.
  assert (Hc : calculateChecksum this (set_data this d' mem) =
               calculateChecksum this mem).
  { rewrite !calculateChecksum_raw. unfold raw_sum.
    replace (m_data this (set_data this d' mem)) with d' by (now destruct this).
    rewrite m_seqNum_set_data, (byte_sum_Permutation _ _ Hp). reflexivity. }
  split; [exact Hc|].
  unfold isValid. rewrite Hc. f_equal. destruct this; reflexivity.
Qed.

Lemma checksum_blind_to_order_witness :
  isValid m_a (set_data m_a [x02; x01] sample_mem) = isValid m_a sample_mem.
Proof.
  apply (checksum_blind_to_order m_a sample_mem [x02; x01]).
  apply Permutation_swap.
Defined.

Lemma writeChecksum_makes_valid_witness :
  isValid m_b (writeChecksum m_b sample_mem) = true
  /\ page_state m_a (writeChecksum m_b sample_mem) = page_state m_a sample_mem.
Proof.
  destruct (writeChecksum_makes_valid m_b m_a sample_mem) as (Hv & _ & _ & Ho).
  split; [exact Hv | apply Ho; discriminate].
Defined.

(** * Beyond the single statements: the store *)

Lemma save_committed (this : ParticleRetainedAtomic) :
  m_scratchpad this <> m_saved this -> committed (save this).
Proof.
  intros Hne. pose proof (save_committed_valid this Hne) as Hval.
  destruct (save_distinct this Hne) as (Hs & Hv & Hx & Hy).
  unfold page_state in Hx, Hy. unfold committed.
  rewrite Hs, Hv in *.
  repeat split; [congruence | exact Hval | congruence | congruence].
Qed.

Lemma write_committed (r : T) (this : ParticleRetainedAtomic) :
  committed this -> committed (writeScratchpad r this).
Proof.
  intros (Hne & Hv & Hs & Hc). unfold committed.
  cbn [writeScratchpad retained m_scratchpad m_saved].
  assert (Hst : page_state (m_saved this)
                  (set_data (m_scratchpad this) r (retained this)) =
                page_state (m_saved this) (retained this)).
  { rewrite page_state_set_data.
    replace (SavePage_eqb (m_saved this) (m_scratchpad this)) with false;
      [reflexivity|].
    symmetry. apply SavePage_eqb_neq. congruence. }
  repeat split.
  - exact Hne.
  - rewrite isValid_fields, Hst, <- isValid_fields. exact Hv.
  - rewrite !m_seqNum_set_data. exact Hs.
  - unfold page_state in Hst.
    replace (m_checksum (m_saved this)
               (set_data (m_scratchpad this) r (retained this)))
      with (m_checksum (m_saved this) (retained this)) by congruence.
    rewrite <- Hc. destruct (m_scratchpad this); reflexivity.
Qed.

Lemma construct_committed (mem : Retained) (defaultValue : T) :
  committed (construct mem defaultValue).
Proof.
  destruct (ctor_cases mem defaultValue)
    as [(p & q & Hne & _ & ->) | (_ & ->)]; apply save_committed; cbn; congruence.
Qed.

Lemma reachable_committed (n : nat) (this : ParticleRetainedAtomic) :
  reachable n this -> committed this.
Proof.
  induction 1 as [mem d _ _ _ | this r _ IH _ | this _ IH].
  - apply construct_committed.
  - apply write_committed, IH.
  - apply save_committed. apply IH.
Qed.

(** The constructor on a memory in which page [p] is valid and page [q] is
    not. *)
Lemma ctor_one_valid (p q : SavePage) (mem : Retained) (defaultValue : T) :
  p <> q -> isValid p mem = true -> isValid q mem = false ->
  construct mem defaultValue =
  save {| retained := mem; m_scratchpad := p; m_saved := q |}.
Proof.
  intros Hne Hp Hq. unfold construct, ParticleRetainedAtomic_ctor.
  destruct p, q; try congruence; rewrite Hp, Hq; reflexivity.
Qed.

(** X4.  With exactly one valid page [p], the constructor recovers it,
    whatever its sequence number and whatever the default value: it commits
    [p] (its record and sequence number stay), and the other page becomes
    the scratchpad holding the same record under the next sequence number. *)
Theorem single_valid_recovery
    (p q : SavePage) (mem : Retained) (defaultValue : T) :
  p <> q ->
  isValid p mem = true ->
  isValid q mem = false ->
  let this := construct mem defaultValue in
  m_saved this = p /\ m_scratchpad this = q
  /\ getScratchpad this = m_data p mem
  /\ m_data p (retained this) = m_data p mem
  /\ m_seqNum p (retained this) = m_seqNum p mem
  /\ m_seqNum q (retained this) = succ_seq (m_seqNum p mem)
  /\ isValid p (retained this) = true.
Proof.
  intros Hne Hp Hq. cbv zeta.
  rewrite (ctor_one_valid p q mem defaultValue Hne Hp Hq).
  set (st := {| retained := mem; m_scratchpad := p; m_saved := q |}).
  assert (Hd : m_scratchpad st <> m_saved st) by exact Hne.
  pose proof (save_committed_valid st Hd) as Hval.
  destruct (save_distinct st Hd) as (Hs & Hv & Hx & Hy).
  unfold page_state in Hx, Hy.
  change (m_scratchpad st) with p in *. change (m_saved st) with q in *.
  change (getScratchpad st) with (m_data p mem) in *.
  change (retained st) with mem in *.
  unfold getScratchpad. rewrite Hs. rewrite Hv in Hval.
  repeat split; congruence.
Qed.

Lemma single_valid_recovery_witness :
  getScratchpad (construct zero_seq_mem [xff; xff]) = [x03; x04]
  /\ m_seqNum m_a (retained (construct zero_seq_mem [xff; xff])) = 1.
Proof.
  destruct (single_valid_recovery m_b m_a zero_seq_mem [xff; xff])
    as (_ & _ & Hg & _ & _ & Hs & _);
    [discriminate | reflexivity | reflexivity |].
  split; [exact Hg | exact Hs].
Defined.

(** X5.  With both pages valid the constructor goes by the sequence
    numbers: A is recovered when its number is greater and when it is 1
    against 65535; B is recovered when its number is greater, except for
    65535 against 1. *)
Theorem double_valid_recovery (mem : Retained) (defaultValue : T) :
  isValid m_a mem = true ->
  isValid m_b mem = true ->
  let this := construct mem defaultValue in
  let a := m_seqNum m_a mem in
  let b := m_seqNum m_b mem in
  (a > b \/ (b = 65535 /\ a = 1) ->
   m_saved this = m_a /\ getScratchpad this = m_data m_a mem)
  /\ (b > a /\ ~ (b = 65535 /\ a = 1) ->
      m_saved this = m_b /\ getScratchpad this = m_data m_b mem).
Proof.
  intros Ha Hb. cbv zeta.
  destruct (double_valid_resolution mem defaultValue Ha Hb) as [HA HB].
  cbv zeta in HA, HB.
  split; intros H; [rewrite (HA H) | rewrite (HB H)];
    (split; [reflexivity | apply getScratchpad_save]).
Qed.

Lemma double_valid_recovery_witness :
  getScratchpad (construct wrap_mem_mirror [xff]) = [x0a].
Proof.
  destruct (double_valid_recovery wrap_mem_mirror [xff]) as [HA _];
    [reflexivity | reflexivity |].
  apply HA. right. split; reflexivity.
Defined.

(** X6.  Whatever the retained memory holds, the constructor returns a store
    whose role pointers differ, whose saved page is valid, and whose two
    pages hold one and the same record, the scratchpad page under the next
    sequence number and the complemented checksum. *)
Theorem construct_postcondition (mem : Retained) (defaultValue : T) :
  let this := construct mem defaultValue in
  committed this
  /\ m_data m_a (retained this) = m_data m_b (retained this)
  /\ 0 <= m_seqNum (m_scratchpad this) (retained this) <= 65535.
Proof.
  cbv zeta. split; [apply construct_committed|].
  destruct (construct_committed mem defaultValue) as (_ & _ & Hseq & _).
  split; [|rewrite Hseq; apply succ_seq_range].
  destruct (ctor_cases mem defaultValue)
    as [(p & q & Hne & _ & ->) | (_ & ->)].
  - set (st := {| retained := mem; m_scratchpad := p; m_saved := q |}).
    destruct (save_distinct st Hne) as (_ & _ & Hx & Hy).
    unfold page_state in Hx, Hy.
    change (m_scratchpad st) with p in *. change (m_saved st) with q in *.
    destruct p, q; congruence.
  - destruct (fallback_state mem defaultValue) as (_ & _ & Ha & _ & Hb & _).
    cbv zeta in Ha, Hb. congruence.
Qed.

(** X7.  The default value matters only in the two fallback cases: when a
    page is valid and the pages are not both valid under one sequence
    number, the constructor returns the same store and the same log for any
    two default values. *)
Theorem default_value_unused (mem : Retained) (d d' : T) :
  isValid m_a mem = true \/ isValid m_b mem = true ->
  ~ (isValid m_a mem = true /\ isValid m_b mem = true
     /\ m_seqNum m_a mem = m_seqNum m_b mem) ->
  ParticleRetainedAtomic_ctor mem d = ParticleRetainedAtomic_ctor mem d'.
Proof.
  intros Hany Htie. unfold ParticleRetainedAtomic_ctor.
  destruct (isValid m_a mem) eqn:Ha, (isValid m_b mem) eqn:Hb.
  - destruct ((m_seqNum m_a mem >? m_seqNum m_b mem)
              || ((m_seqNum m_b mem =? UINT16_MAX) && (m_seqNum m_a mem =? 1)))
      eqn:H1; [reflexivity|].
    destruct ((m_seqNum m_b mem >? m_seqNum m_a mem)
              || ((m_seqNum m_a mem =? UINT16_MAX) && (m_seqNum m_b mem =? 1)))
      eqn:H2; [reflexivity|].
    exfalso. apply Htie.
    apply orb_false_iff in H1 as [H1 _]. apply orb_false_iff in H2 as [H2 _].
    repeat split. lia.
  - reflexivity.
  - reflexivity.
  - destruct Hany; discriminate.
Qed.

Lemma default_value_unused_witness :
  ParticleRetainedAtomic_ctor sample_mem [x00; x00] =
  ParticleRetainedAtomic_ctor sample_mem [xff; xff].
Proof.
  apply (default_value_unused sample_mem [x00; x00] [xff; xff]).
  - left. reflexivity.
  - intros (_ & Hb & _). discriminate Hb.
Defined.

(** X8.  The error log of the constructor: a zero sequence number of a valid
    page A is reported; a zero sequence number of a valid page B is reported
    only when A is valid too; the failed validation is reported exactly when
    both pages are valid under one sequence number.  Nothing else is ever
    reported, and the default value has no part in it. *)
Theorem ctor_error_log (mem : Retained) (defaultValue : T) :
  fst (ParticleRetainedAtomic_ctor mem defaultValue) = expected_log mem
  /\ (isValid m_a mem = false ->
      fst (ParticleRetainedAtomic_ctor mem defaultValue) = []).
Proof.
  assert (H : fst (ParticleRetainedAtomic_ctor mem defaultValue) = expected_log mem).
  { unfold ParticleRetainedAtomic_ctor, expected_log.
    destruct (isValid m_a mem) eqn:Ha, (isValid m_b mem) eqn:Hb; cbn [andb].
    - unfold UINT16_MAX.
      destruct (Z.eqb_spec (m_seqNum m_a mem) (m_seqNum m_b mem)) as [Heq|Hne].
      + rewrite Heq, Z.gtb_ltb, Z.ltb_irrefl.
        replace ((m_seqNum m_b mem =? 65535) && (m_seqNum m_b mem =? 1)) with false
          by (destruct (Z.eqb_spec (m_seqNum m_b mem) 65535) as [->|]; reflexivity).
        cbn [orb fst]. now rewrite app_assoc.
      + destruct ((m_seqNum m_a mem >? m_seqNum m_b mem)
                  || ((m_seqNum m_b mem =? 65535) && (m_seqNum m_a mem =? 1)))
          eqn:H1; [cbn [fst]; now rewrite app_nil_r|].
        destruct ((m_seqNum m_b mem >? m_seqNum m_a mem)
                  || ((m_seqNum m_a mem =? 65535) && (m_seqNum m_b mem =? 1)))
          eqn:H2; [cbn [fst]; now rewrite app_nil_r|].
        exfalso. apply Hne.
        apply orb_false_iff in H1 as [H1 _]. apply orb_false_iff in H2 as [H2 _].
        lia.
    - cbn [fst]. now rewrite app_nil_r.
    - reflexivity.
    - reflexivity. }
  split; [exact H|].
  intros Ha. rewrite H. unfold expected_log. rewrite Ha. reflexivity.
Qed.

Lemma ctor_error_log_witness :
  fst (ParticleRetainedAtomic_ctor zero_seq_mem [xff; xff]) = [].
Proof.
  apply (ctor_error_log zero_seq_mem [xff; xff]). reflexivity.
Defined.

Lemma store_ext (this this' : ParticleRetainedAtomic) :
  retained this = retained this' ->
  m_scratchpad this = m_scratchpad this' ->
  m_saved this = m_saved this' ->
  this = this'.
Proof. destruct this, this'. cbn. congruence. Qed.

(** X9.  After [save] on a store whose role pointers differ, for records of
    any size: the committed page is valid and keeps its sequence number, both
    pages hold the record that was in the scratchpad, and the new scratchpad
    page carries the next sequence number and the complemented checksum. *)
Theorem save_postcondition (this : ParticleRetainedAtomic) :
  m_scratchpad this <> m_saved this ->
  committed (save this)
  /\ m_data m_a (retained (save this)) = getScratchpad this
  /\ m_data m_b (retained (save this)) = getScratchpad this
  /\ m_seqNum (m_saved (save this)) (retained (save this)) =
     m_seqNum (m_scratchpad this) (retained this).
Proof.
  intros Hne. split; [apply save_committed, Hne|].
  destruct (save_distinct this Hne) as (Hs & Hv & Hx & Hy).
  unfold page_state in Hx, Hy. rewrite Hv.
  assert (Hall : forall p, m_data p (retained (save this)) = getScratchpad this).
  { intros p. destruct (SavePage_other _ _ p Hne) as [-> | ->]; congruence. }
  repeat split; [apply Hall | apply Hall | congruence].
Qed.

Lemma save_postcondition_witness :
  m_data m_a (retained (save sample_store)) = [x01; x02]
  /\ isValid (m_saved (save sample_store)) (retained (save sample_store)) = true.
Proof.
  destruct (save_postcondition sample_store) as ((_ & Hv & _) & Ha & _);
    [discriminate|].
  split; [exact Ha | exact Hv].
Defined.

(** Construction over the memory a [save] left, with the stale page
    invalid, reproduces the store that [save] returned. *)
Lemma construct_after_save (st : ParticleRetainedAtomic) (defaultValue : T) :
  m_scratchpad st <> m_saved st ->
  isValid (m_scratchpad (save st)) (retained (save st)) = false ->
  construct (retained (save st)) defaultValue = save st.
Proof.
  intros Hne Hstale.
  pose proof (save_committed_valid st Hne) as Hval.
  destruct (save_distinct st Hne) as (Hs & Hv & Hx & Hy).
  rewrite Hs in Hstale. rewrite Hv in Hval.
  rewrite (ctor_one_valid (m_scratchpad st) (m_saved st) _ defaultValue Hne Hval Hstale).
  set (mem2 := retained (save st)) in *.
  set (st2 := {| retained := mem2; m_scratchpad := m_scratchpad st;
                 m_saved := m_saved st |}).
  assert (Hne2 : m_scratchpad st2 <> m_saved st2) by exact Hne.
  destruct (save_distinct st2 Hne2) as (Hs2 & Hv2 & Hx2 & Hy2).
  change (m_scratchpad st2) with (m_scratchpad st) in *.
  change (m_saved st2) with (m_saved st) in *.
  change (retained st2) with mem2 in *.
  change (getScratchpad st2) with (m_data (m_scratchpad st) mem2) in *.
  assert (Hd : m_data (m_scratchpad st) mem2 = getScratchpad st)
    by (unfold page_state in Hx; congruence).
  assert (Hq : m_seqNum (m_scratchpad st) mem2 =
               m_seqNum (m_scratchpad st) (retained st))
    by (unfold page_state in Hx; congruence).
  assert (Hc : calculateChecksum (m_scratchpad st) mem2 =
               calculateChecksum (m_scratchpad st) (retained st))
    by (apply calculateChecksum_ext; [exact Hd | exact Hq]).
  rewrite Hd, Hq, Hc in Hx2, Hy2.
  apply store_ext; [|congruence|congruence].
  assert (Hall : forall p, page_state p (retained (save st2)) = page_state p mem2).
  { intros p. destruct (SavePage_other _ _ p Hne) as [-> | ->]; congruence. }
  apply Retained_ext; apply Hall.
Qed.

(** X10.  A reset after a completed commit changes nothing: for a record
    type within the size bound, constructing a store over the memory left by
    the constructor or by any later [save] gives back the very same store,
    memory and role pointers, whatever the default value. *)
Theorem reboot_after_commit_is_identity (n : nat) :
  255 * Z.of_nat n + 510 < 2 ^ 31 ->
  (forall (mem : Retained) (d d' : T),
      length (retainedPageA mem) = n ->
      length (retainedPageB mem) = n ->
      length d = n ->
      construct (retained (construct mem d)) d' = construct mem d)
  /\ (forall (this : ParticleRetainedAtomic) (d' : T),
         reachable n this ->
         construct (retained (save this)) d' = save this).
Proof.
  intros Hn. split.
  - intros mem d d' Hla Hlb Hld.
    destruct (construct_well_formed n mem d Hla Hlb Hld) as (pre & -> & Hwf).
    destruct (save_single_valid n Hn pre Hwf) as (_ & Hstale & _).
    apply construct_after_save; [apply Hwf | exact Hstale].
  - intros this d' Hr. pose proof (reachable_well_formed n this Hr) as Hwf.
    destruct (save_single_valid n Hn this Hwf) as (_ & Hstale & _).
    apply construct_after_save; [apply Hwf | exact Hstale].
Qed.

Lemma reboot_after_commit_is_identity_witness :
  construct (retained (construct garbage_mem [xff; xff])) [x00; x00] =
  construct garbage_mem [xff; xff].
Proof.
  destruct (reboot_after_commit_is_identity 2) as [Hctor _]; [lia|].
  apply Hctor; reflexivity.
Defined.

(** * Resets between commits and inside [save] *)

(** X11.  Edits that were not committed are lost at a reset, as the header
    says: for a record type within the size bound, whatever record the
    caller left in the scratchpad of a reachable store, the constructor run
    on that memory recovers the saved page and hands out its record. *)
Theorem uncommitted_edits_discarded
    (n : nat) (this : ParticleRetainedAtomic) (r defaultValue : T) :
  255 * Z.of_nat n + 510 < 2 ^ 31 ->
  reachable n this ->
  length r = n ->
  let reopened := construct (retained (writeScratchpad r this)) defaultValue in
  m_saved reopened = m_saved this
  /\ getScratchpad reopened = m_data (m_saved this) (retained this).
Proof.
  intros Hn Hr Hlen. cbv zeta.
  destruct (reachable_well_formed n this Hr) as (_ & Hla & Hlb).
  pose proof (write_committed r this (reachable_committed n this Hr)) as Hc.
  destruct Hc as (Hne & Hv & Hs & Hc).
  cbn [writeScratchpad retained m_scratchpad m_saved] in Hne, Hv, Hs, Hc |- *.
  set (mem' := set_data (m_scratchpad this) r (retained this)) in *.
  assert (Hdy : m_data (m_saved this) mem' = m_data (m_saved this) (retained this)).
  { unfold mem'. destruct (m_scratchpad this), (m_saved this);
      try congruence; reflexivity. }
  assert (Hdx : m_data (m_scratchpad this) mem' = r).
  { unfold mem'. destruct (m_scratchpad this); reflexivity. }
  assert (Hsmall_r : small_record r) by (unfold small_record; congruence).
  assert (Hsmall_y : small_record (m_data (m_saved this) mem')).
  { unfold small_record. rewrite Hdy.
    destruct (m_saved this); cbn [m_data] in *; congruence. }
  assert (Hx : isValid (m_scratchpad this) mem' = false).
  { rewrite isValid_fields in Hv |- *. unfold page_state in Hv |- *.
    apply valid_fields_true in Hv. apply valid_fields_false.
    rewrite Hc, Hv, Hs, Hdx.
    rewrite not32_involutive by apply raw_sum_range.
    rewrite (not32_sub (raw_sum r _)) by apply raw_sum_range.
    rewrite !raw_sum_small by assumption.
    unfold small_record in Hsmall_r, Hsmall_y.
    pose proof (byte_sum_range r).
    pose proof (byte_sum_range (m_data (m_saved this) mem')).
    pose proof (seq_hi_range (m_seqNum (m_saved this) mem')).
    pose proof (seq_lo_range (m_seqNum (m_saved this) mem')).
    pose proof (seq_hi_range (succ_seq (m_seqNum (m_saved this) mem'))).
    pose proof (seq_lo_range (succ_seq (m_seqNum (m_saved this) mem'))).
    lia. }
  assert (Hne' : m_saved this <> m_scratchpad this) by congruence.
  rewrite (ctor_one_valid _ _ mem' defaultValue Hne' Hv Hx).
  rewrite getScratchpad_save. split; [reflexivity | exact Hdy].
Qed.

Lemma uncommitted_edits_discarded_witness :
  getScratchpad
    (construct
       (retained (writeScratchpad [x10; x20] (construct garbage_mem [xff; xff])))
       [x00; x00])
  = [xff; xff].
Proof.
  apply (uncommitted_edits_discarded 2 (construct garbage_mem [xff; xff])
           [x10; x20] [x00; x00]);
    [lia | apply reachable_ctor; reflexivity | reflexivity].
Defined.

(** The memory after the first statement of [save]: both pages are valid,
    records and sequence numbers are those before the call. *)
Lemma after_writeChecksum_state (this : ParticleRetainedAtomic) :
  committed this ->
  let mem1 := save_after_writeChecksum this in
  isValid m_a mem1 = true /\ isValid m_b mem1 = true
  /\ (forall p, m_data p mem1 = m_data p (retained this))
  /\ (forall p, m_seqNum p mem1 = m_seqNum p (retained this)).
Proof.
  intros (Hne & Hv & _ & _). cbv zeta. unfold save_after_writeChecksum.
  pose proof (writeChecksum_valid (m_scratchpad this) (retained this)) as Hx.
  assert (Hy : isValid (m_saved this)
                 (writeChecksum (m_scratchpad this) (retained this)) = true).
  { rewrite isValid_fields. unfold writeChecksum.
    rewrite page_state_set_checksum.
    replace (SavePage_eqb (m_saved this) (m_scratchpad this)) with false
      by (symmetry; apply SavePage_eqb_neq; congruence).
    rewrite <- isValid_fields. exact Hv. }
  split; [|split; [|split]].
  - destruct (SavePage_other _ _ m_a Hne) as [-> | ->]; assumption.
  - destruct (SavePage_other _ _ m_b Hne) as [-> | ->]; assumption.
  - intros p. unfold writeChecksum. destruct p, (m_scratchpad this); reflexivity.
  - intros p. unfold writeChecksum. destruct p, (m_scratchpad this); reflexivity.
Qed.

(** X12.  A reset after the first statement of [save], when the scratchpad
    has its checksum and the saved page has not been touched: both pages are
    valid, and the constructor takes the page being committed and hands out
    its record, for records of any size.  The one exception is a saved
    page A under sequence number 65535: the scratchpad is then page B and
    carries 1, the constructor takes A, and the record of the commit before
    is handed out. *)
Theorem reset_after_writeChecksum
    (n : nat) (this : ParticleRetainedAtomic) (defaultValue : T) :
  reachable n this ->
  0 <= m_seqNum (m_saved this) (retained this) <= 65535 ->
  let mem1 := save_after_writeChecksum this in
  let reopened := construct mem1 defaultValue in
  isValid m_a mem1 = true /\ isValid m_b mem1 = true
  /\ (~ (m_saved this = m_a /\ m_seqNum m_a (retained this) = 65535) ->
      m_saved reopened = m_scratchpad this
      /\ getScratchpad reopened = getScratchpad this)
  /\ (m_saved this = m_a /\ m_seqNum m_a (retained this) = 65535 ->
      m_scratchpad this = m_b
      /\ m_seqNum m_b mem1 = 1
      /\ m_saved reopened = m_a
      /\ getScratchpad reopened = m_data m_a (retained this)).
Proof.
  intros Hr Hrange. cbv zeta.
  pose proof (reachable_committed n this Hr) as Hc.
  destruct (after_writeChecksum_state this Hc) as (Ha & Hb & Hd & Hq).
  cbv zeta in Ha, Hb, Hd, Hq.
  destruct Hc as (Hne & _ & Hs & _).
  split; [exact Ha|]. split; [exact Hb|].
  destruct (double_valid_resolution _ defaultValue Ha Hb) as [HA HB].
  cbv zeta in HA, HB. rewrite !Hq in HA, HB. rewrite Hq.
  change (getScratchpad this) with (m_data (m_scratchpad this) (retained this)).
  rewrite succ_seq_spec in Hs by exact Hrange. unfold next_seq_spec in Hs.
  destruct (m_scratchpad this) eqn:Ex, (m_saved this) eqn:Ey; try congruence.
  - (* the scratchpad is page A *)
    rewrite HA.
    + split; [intros _ | intros [Hf _]; discriminate Hf].
      rewrite getScratchpad_save. split; [reflexivity | apply Hd].
    + destruct (Z.eqb_spec (m_seqNum m_b (retained this)) 65535); [right|left]; lia.
  - (* the scratchpad is page B *)
    destruct (Z.eqb_spec (m_seqNum m_a (retained this)) 65535) as [Hmax|Hmax].
    + rewrite HA by lia.
      split; [intros Hf; exfalso; apply Hf; auto | intros _].
      rewrite getScratchpad_save.
      split; [reflexivity|]. split; [exact Hs|]. split; [reflexivity | apply Hd].
    + rewrite HB by lia.
      split; [intros _ | intros [_ Hf]; contradiction].
      rewrite getScratchpad_save. split; [reflexivity | apply Hd].
Qed.

Lemma reset_after_writeChecksum_witness :
  getScratchpad
    (construct
       (save_after_writeChecksum
          (writeScratchpad [x10; x20] (construct garbage_mem [xff; xff])))
       [x00; x00])
  = [x10; x20].
Proof.
  destruct (reset_after_writeChecksum 2
              (writeScratchpad [x10; x20] (construct garbage_mem [xff; xff]))
              [x00; x00]) as (_ & _ & H & _).
  - apply reachable_write; [apply reachable_ctor|]; reflexivity.
  - vm_compute. split; discriminate.
  - apply H. intros [_ Hf]. vm_compute in Hf. discriminate Hf.
Defined.

(** X13.  A reset after the second statement of [save], when the record has
    been copied and the copy's checksum not yet complemented: the copy
    holds the record and the checksum of the page being committed and
    differs from it in the sequence number only, and by that it is invalid,
    while the page being committed is valid; the constructor takes that page
    and hands out its record, for records of any size. *)
Theorem reset_after_copy
    (n : nat) (this : ParticleRetainedAtomic) (defaultValue : T) :
  reachable n this ->
  let mem2 := save_after_copy this in
  let reopened := construct mem2 defaultValue in
  m_data (m_saved this) mem2 = m_data (m_scratchpad this) mem2
  /\ m_checksum (m_saved this) mem2 = m_checksum (m_scratchpad this) mem2
  /\ m_seqNum (m_saved this) mem2 = succ_seq (m_seqNum (m_scratchpad this) mem2)
  /\ isValid (m_saved this) mem2 = false
  /\ isValid (m_scratchpad this) mem2 = true
  /\ m_saved reopened = m_scratchpad this
  /\ getScratchpad reopened = getScratchpad this.
Proof.
  intros Hr. cbv zeta.
  pose proof (reachable_committed n this Hr) as Hc.
  destruct (after_writeChecksum_state this Hc) as (_ & _ & Hd & Hq).
  cbv zeta in Hd, Hq.
  destruct Hc as (Hne & _ & Hs & _).
  pose proof (writeChecksum_valid (m_scratchpad this) (retained this)) as Hx.
  fold (save_after_writeChecksum this) in Hx.
  assert (Hne' : m_saved this <> m_scratchpad this) by congruence.
  assert (Hrange : 0 <= m_seqNum (m_scratchpad this)
                          (save_after_writeChecksum this) <= 65535)
    by (rewrite Hq, Hs; apply succ_seq_range).
  destruct (assign_from_valid _ _ _ Hne' Hrange Hx) as (Hinv & Hval & Hcopy).
  destruct (assign_distinct (m_saved this) (m_scratchpad this)
              (save_after_writeChecksum this) Hne') as [Hdst Hsrc].
  fold (save_after_copy this) in Hinv, Hval, Hcopy, Hdst, Hsrc.
  unfold page_state in Hdst, Hsrc.
  assert (Hdata : m_data (m_scratchpad this) (save_after_copy this) =
                  getScratchpad this)
    by (unfold getScratchpad; rewrite <- Hd; congruence).
  split; [congruence|]. split; [congruence|]. split; [congruence|].
  split; [exact Hinv|]. split; [exact Hval|].
  rewrite (ctor_one_valid _ _ _ defaultValue Hne Hval Hinv).
  rewrite getScratchpad_save. split; [reflexivity | exact Hdata].
Qed.

Lemma reset_after_copy_witness :
  getScratchpad
    (construct
       (save_after_copy
          (writeScratchpad [x10; x20] (construct garbage_mem [xff; xff])))
       [x00; x00])
  = [x10; x20].
Proof.
  apply (reset_after_copy 2
           (writeScratchpad [x10; x20] (construct garbage_mem [xff; xff]))
           [x00; x00]).
  apply reachable_write; [apply reachable_ctor|]; reflexivity.
Defined.

(** The third statement of [save] completes it. *)
Lemma save_statements (this : ParticleRetainedAtomic) :
  retained (save this) = clearChecksum (m_saved this) (save_after_copy this).
Proof. reflexivity. Qed.

(** * First start *)


(** * The page that [clearChecksum] makes valid *)

(** In [save], the copy is invalid before [clearChecksum] runs on it, and
    with a record whose bytes sum to [2^31 - 3], copied under sequence
    number 2, it is valid afterwards. *)
Lemma save_revalidates (this : ParticleRetainedAtomic) (r : T) :
  m_scratchpad this = m_b -> m_saved this = m_a ->
  m_seqNum m_b (retained this) = 2 ->
  byte_sum r = 2 ^ 31 - 3 ->
  let st := writeScratchpad r this in
  isValid m_a (save_after_copy st) = false
  /\ retained (save st) = clearChecksum m_a (save_after_copy st)
  /\ isValid m_a (retained (save st)) = true
  /\ isValid m_b (retained (save st)) = true.
Proof.
  intros Hsp Hsv Hseq Hr. cbv zeta.
  destruct (save_both_valid this r Hsp Hsv Hseq Hr) as [Ha Hb].
  cbv zeta in Ha, Hb.
  split; [|split; [|split; [exact Ha | exact Hb]]].
  - unfold save_after_copy, save_after_writeChecksum.
    cbn [writeScratchpad retained m_scratchpad m_saved]. rewrite Hsp, Hsv.
    apply assign_from_valid; [discriminate | | apply writeChecksum_valid].
    unfold writeChecksum.
    replace (m_seqNum m_b
               (set_checksum m_b
                  (calculateChecksum m_b (set_data m_b r (retained this)))
                  (set_data m_b r (retained this))))
      with (m_seqNum m_b (retained this)) by reflexivity.
    rewrite Hseq. lia.
  - rewrite save_statements.
    cbn [writeScratchpad m_saved]. now rewrite Hsv.
Qed.

(** The same in the constructor's fallback, with a default value whose bytes
    sum to [2^31 - 2], copied under sequence number 1. *)
Lemma fallback_revalidates (mem : Retained) (d : T) :
  byte_sum d = 2 ^ 31 - 2 ->
  let pre := {| retained := init m_a d mem;
                m_scratchpad := m_a; m_saved := m_b |} in
  isValid m_b (save_after_copy pre) = false
  /\ retained (save pre) = clearChecksum m_b (save_after_copy pre)
  /\ isValid m_a (retained (save pre)) = true
  /\ isValid m_b (retained (save pre)) = true.
Proof.
  intros Hd. cbv zeta.
  destruct (fallback_both_valid mem d Hd) as [Ha Hb]. cbv zeta in Ha, Hb.
  split; [|split; [reflexivity | split; [exact Ha | exact Hb]]].
  unfold save_after_copy, save_after_writeChecksum.
  cbn [retained m_scratchpad m_saved].
  apply assign_from_valid; [discriminate | | apply writeChecksum_valid].
  replace (m_seqNum m_a (writeChecksum m_a (init m_a d mem))) with 1
    by reflexivity.
  lia.
Qed.

Lemma huge_record_length (tail : byte) :
  length (huge_record tail) = N.to_nat 8421505.
Proof.
  unfold huge_record. rewrite length_app, length_replicate.
  change 8421505%N with (N.succ 8421504). rewrite N2Nat.inj_succ.
  cbn [length]. apply Nat.add_1_r.
Qed.

(** C3.  The code at a record type of 8421505 bytes: a store constructed on
    blank memory, a record whose bytes sum to [2^31 - 3] stored through the
    scratchpad, and [save].  The state is reachable; the copy that
    [operator=] leaves in page A is invalid; [clearChecksum], run on it to
    invalidate it, makes it valid; after [save] both pages are valid. *)
Theorem save_leaves_both_pages_valid :
  let this := construct (blank_mem (huge_record x00)) (huge_record x00) in
  let st := writeScratchpad (huge_record x7d) this in
  reachable (N.to_nat 8421505) st
  /\ isValid m_a (save_after_copy st) = false
  /\ retained (save st) = clearChecksum m_a (save_after_copy st)
  /\ isValid m_a (retained (save st)) = true
  /\ isValid m_b (retained (save st)) = true
  /\ exactly_one_valid (retained (save st)) = false.
Proof.
  cbv zeta.
  assert (H0 : u32 (byte_sum (huge_record x00)) <> 2 ^ 32 - 1).
  { rewrite byte_sum_huge_record. discriminate. }
  destruct (construct_blank (huge_record x00) H0) as (Hsp & Hsv & Hseq & _).
  cbv zeta in Hsp, Hsv, Hseq.
  assert (Hr : byte_sum (huge_record x7d) = 2 ^ 31 - 3).
  { rewrite byte_sum_huge_record. reflexivity. }
  destruct (save_revalidates _ (huge_record x7d) Hsp Hsv Hseq Hr)
    as (Hinv & Hst & Ha & Hb).
  cbv zeta in Hinv, Hst, Ha, Hb.
  split.
  { apply reachable_write; [|exact (huge_record_length x7d)].
    apply reachable_ctor;
      [exact (huge_record_length x00) | exact (huge_record_length x00)
       | exact (huge_record_length x00)]. }
  split; [exact Hinv|]. split; [exact Hst|].
  split; [exact Ha|]. split; [exact Hb|].
  unfold exactly_one_valid. rewrite Ha, Hb. exact eq_refl.
Qed.

(** C4.  The code at a record type of 8421505 bytes, with no valid page and
    a default value whose bytes sum to [2^31 - 2]: the constructor
    initializes page A and commits it, the scratchpad record is the default
    value, the copy that [operator=] leaves in page B is invalid, and
    [clearChecksum] makes it valid: after construction both pages are
    valid. *)
Theorem construct_leaves_both_pages_valid :
  let mem := blank_mem (huge_record x00) in
  let pre := {| retained := init m_a (huge_record x7e) mem;
                m_scratchpad := m_a; m_saved := m_b |} in
  let this := construct mem (huge_record x7e) in
  isValid m_a mem = false /\ isValid m_b mem = false
  /\ ParticleRetainedAtomic_ctor mem (huge_record x7e) = ([], save pre)
  /\ getScratchpad this = huge_record x7e
  /\ isValid m_b (save_after_copy pre) = false
  /\ retained this = clearChecksum m_b (save_after_copy pre)
  /\ isValid m_a (retained this) = true
  /\ isValid m_b (retained this) = true
  /\ exactly_one_valid (retained this) = false.
Proof.
  cbv zeta.
  assert (H0 : u32 (byte_sum (huge_record x00)) <> 2 ^ 32 - 1).
  { rewrite byte_sum_huge_record. discriminate. }
  pose proof (blank_mem_invalid m_a _ H0) as Ha.
  pose proof (blank_mem_invalid m_b _ H0) as Hb.
  pose proof (ctor_no_valid_page _ (huge_record x7e) Ha Hb) as Hc.
  unfold construct. rewrite Hc. cbn [snd].
  destruct (fallback_state (blank_mem (huge_record x00)) (huge_record x7e))
    as (Hs & _ & _ & _ & Hdb & _).
  cbv zeta in Hs, Hdb.
  assert (Hd : byte_sum (huge_record x7e) = 2 ^ 31 - 2).
  { rewrite byte_sum_huge_record. reflexivity. }
  destruct (fallback_revalidates (blank_mem (huge_record x00)) (huge_record x7e) Hd)
    as (Hinv & Hst & Hva & Hvb).
  cbv zeta in Hinv, Hst, Hva, Hvb.
  split; [exact Ha|]. split; [exact Hb|]. split; [exact eq_refl|].
  split; [unfold getScratchpad; rewrite Hs; exact Hdb|].
  split; [exact Hinv|]. split; [exact Hst|].
  split; [exact Hva|]. split; [exact Hvb|].
  unfold exactly_one_valid. rewrite Hva, Hvb. exact eq_refl.
Qed.
